(** * TweetStore: the indexed post store of the tweet widget

    A shallow embedding of the class [TweetStore] (the second part of
    [src/llm/gemini/geminiApi.ts]) and the properties of its derived
    indices, its denormalised counters and its thread traversal.

    Posts are JavaScript objects: the primary collection and the three
    indices all hold references to the same objects, and the store mutates
    them in place.  The embedding therefore keeps an explicit object heap
    and lets the collection and the indices hold references ([loc]). *)

From stdpp Require Import gmap strings list fin_maps functions relations.
From Stdlib Require Import ZArith Lia Ascii.

(** ** Data model *)

(** An object reference. *)
Definition loc := nat.

(** Modelled from the spec: the type [TweetWidgetPost] is declared in
    [./types], which is not among the sources.  The fields are those of the
    spec's data model, which are the ones that the store reads and writes;
    [replyCount] and [retweet] may be absent, as the store reads them with
    [|| 0]; [text] stands for the content payload that the store never
    interprets. *)
Record TweetWidgetPost := mkPost {
  id : string;
  text : string;
  threadId : option string;
  quoteId : option string;
  replyCount : option Z;
  retweet : option Z;
  updated : Z;
}.

(** [Partial<Omit<TweetWidgetPost, 'id'>>], the type of the [updates] of
    [updatePost]: every key but [id] may be missing ([None]); an optional
    field may be present with the value [undefined] ([Some None]). *)
Record PostUpdates := mkUpdates {
  u_text : option string;
  u_threadId : option (option string);
  u_quoteId : option (option string);
  u_replyCount : option (option Z);
  u_retweet : option (option Z);
  u_updated : option Z;
}.

(** The heap of post objects.  Every reference designates an object; an
    object that the caller creates later is in the heap from the start. *)
Definition Heap := loc → TweetWidgetPost.

(** The store together with the heap it works on.  [posts] is
    [settings.posts]. *)
Record TweetStore := mkStore {
  heap : Heap;
  posts : list loc;
  postsById : gmap string loc;
  childrenByThreadId : gmap string (list loc);
  quotesById : gmap string (list loc);
}.

Definition with_heap (h : Heap) (s : TweetStore) : TweetStore :=
  {| heap := h; posts := posts s; postsById := postsById s;
     childrenByThreadId := childrenByThreadId s; quotesById := quotesById s |}.

Definition with_posts (ps : list loc) (s : TweetStore) : TweetStore :=
  {| heap := heap s; posts := ps; postsById := postsById s;
     childrenByThreadId := childrenByThreadId s; quotesById := quotesById s |}.

(** ** JavaScript conversions *)

(** [if (post.threadId)]: an optional string is truthy when it is present
    and not the empty string. *)
Definition truthy (o : option string) : option string :=
  match o with
  | Some k => if decide (k = EmptyString) then None else Some k
  | None => None
  end.

(** [x || 0] on an optional number. *)
Definition or0 (o : option Z) : Z :=
  match o with
  | Some z => if decide (z = 0) then 0 else z
  | None => 0
  end%Z.

(** ** Index rebuild *)

(** [new Map(posts.map(p => [p.id, p]))]: a later entry overwrites an
    earlier one under the same key. *)
Definition build_postsById (h : Heap) (ps : list loc) : gmap string loc :=
  foldl (λ m p, <[id (h p) := p]> m) ∅ ps.

(** [if (key) { if (!m.has(key)) m.set(key, []); m.get(key)!.push(post) }] *)
Definition push_under (key : option string) (post : loc)
    (m : gmap string (list loc)) : gmap string (list loc) :=
  match truthy key with
  | Some k => partial_alter (λ o, Some (default [] o ++ [post])) k m
  | None => m
  end.

(** The loop of [updateChildrenMap] for one of its two maps; [key] reads
    [threadId] or [quoteId]. *)
Definition build_adj (key : loc → option string) (ps : list loc)
    : gmap string (list loc) :=
  foldl (λ m p, push_under (key p) p m) ∅ ps.

Definition build_childMap (h : Heap) (ps : list loc) : gmap string (list loc) :=
  build_adj (λ p, threadId (h p)) ps.

Definition build_quoteMap (h : Heap) (ps : list loc) : gmap string (list loc) :=
  build_adj (λ p, quoteId (h p)) ps.

Definition updateChildrenMap (s : TweetStore) : TweetStore :=
  {| heap := heap s; posts := posts s; postsById := postsById s;
     childrenByThreadId := build_childMap (heap s) (posts s);
     quotesById := build_quoteMap (heap s) (posts s) |}.

Definition updatePostsById (s : TweetStore) : TweetStore :=
  updateChildrenMap
    {| heap := heap s; posts := posts s;
       postsById := build_postsById (heap s) (posts s);
       childrenByThreadId := childrenByThreadId s; quotesById := quotesById s |}.

(** [new TweetStore(initialSettings)] over heap [h]. *)
Definition newTweetStore (h : Heap) (initialPosts : list loc) : TweetStore :=
  updatePostsById
    {| heap := h; posts := initialPosts; postsById := ∅;
       childrenByThreadId := ∅; quotesById := ∅ |}.

Definition setAllSettings (newPosts : list loc) (s : TweetStore) : TweetStore :=
  updatePostsById (with_posts newPosts s).

(** ** Accessors *)

Definition getPostById (postId : string) (s : TweetStore) : option loc :=
  postsById s !! postId.

Definition getReplies (parentId : string) (s : TweetStore) : list loc :=
  default [] (childrenByThreadId s !! parentId).

Definition getQuotePosts (postId : string) (s : TweetStore) : list loc :=
  default [] (quotesById s !! postId).

(** ** Counter updates *)

Definition inc_replyCount (now : Z) (p : TweetWidgetPost) : TweetWidgetPost :=
  {| id := id p; text := text p; threadId := threadId p; quoteId := quoteId p;
     replyCount := Some (or0 (replyCount p) + 1)%Z; retweet := retweet p;
     updated := now |}.

Definition inc_retweet (now : Z) (p : TweetWidgetPost) : TweetWidgetPost :=
  {| id := id p; text := text p; threadId := threadId p; quoteId := quoteId p;
     replyCount := replyCount p; retweet := Some (or0 (retweet p) + 1)%Z;
     updated := now |}.

Definition dec_replyCount (p : TweetWidgetPost) : TweetWidgetPost :=
  {| id := id p; text := text p; threadId := threadId p; quoteId := quoteId p;
     replyCount := Some (Z.max 0 (or0 (replyCount p) - 1))%Z; retweet := retweet p;
     updated := updated p |}.

Definition dec_retweet (p : TweetWidgetPost) : TweetWidgetPost :=
  {| id := id p; text := text p; threadId := threadId p; quoteId := quoteId p;
     replyCount := replyCount p; retweet := Some (Z.max 0 (or0 (retweet p) - 1))%Z;
     updated := updated p |}.

(** The pattern shared by [addPost], [deletePost] and [deleteThread]:
    [if (key) { const x = this.postsById.get(key); if (x) { x := f x } }]. *)
Definition touch (byId : gmap string loc) (key : option string)
    (f : TweetWidgetPost → TweetWidgetPost) (h : Heap) : Heap :=
  match truthy key with
  | Some k =>
      match byId !! k with
      | Some x => alter f x h
      | None => h
      end
  | None => h
  end.

(** ** Mutations *)

(** [t1] and [t2] are the two readings of [Date.now()]. *)
Definition addPost (post : loc) (t1 t2 : Z) (s : TweetStore) : TweetStore :=
  let ps := post :: posts s in
  let h1 := touch (postsById s) (threadId (heap s post)) (inc_replyCount t1) (heap s) in
  let h2 := touch (postsById s) (quoteId (h1 post)) (inc_retweet t2) h1 in
  updatePostsById (with_posts ps (with_heap h2 s)).

(** [Object.assign(post, updates)] *)
Definition assign (p : TweetWidgetPost) (u : PostUpdates) : TweetWidgetPost :=
  {| id := id p;
     text := default (text p) (u_text u);
     threadId := default (threadId p) (u_threadId u);
     quoteId := default (quoteId p) (u_quoteId u);
     replyCount := default (replyCount p) (u_replyCount u);
     retweet := default (retweet p) (u_retweet u);
     updated := default (updated p) (u_updated u) |}.

Definition set_updated (now : Z) (p : TweetWidgetPost) : TweetWidgetPost :=
  {| id := id p; text := text p; threadId := threadId p; quoteId := quoteId p;
     replyCount := replyCount p; retweet := retweet p; updated := now |}.

Definition updatePost (postId : string) (updates : PostUpdates) (now : Z)
    (s : TweetStore) : TweetStore :=
  match postsById s !! postId with
  | Some post =>
      updatePostsById
        (with_heap (alter (λ p, set_updated now (assign p updates)) post (heap s)) s)
  | None => s
  end.

Definition deletePost (postId : string) (s : TweetStore) : TweetStore :=
  let post := postsById s !! postId in
  let h1 := match post with
            | Some p => touch (postsById s) (threadId (heap s p)) dec_replyCount (heap s)
            | None => heap s
            end in
  let h2 := match post with
            | Some p => touch (postsById s) (quoteId (h1 p)) dec_retweet h1
            | None => h1
            end in
  updatePostsById
    (with_posts (filter (λ p, id (h2 p) ≠ postId) (posts s)) (with_heap h2 s)).

(** ** Thread traversal *)

(** The body of [for (const child of children)]: the visited set [ids]
    keeps insertion order, as a JavaScript [Set] does. *)
Definition visit (h : Heap) (acc : list string * list string) (child : loc)
    : list string * list string :=
  let '(ids, queue) := acc in
  if decide (id (h child) ∈ ids) then (ids, queue)
  else (ids ++ [id (h child)], queue ++ [id (h child)]).

(** The [while (queue.length > 0)] loop; [fuel] bounds the number of
    iterations and [None] means that the bound was reached. *)
Fixpoint collect_loop (fuel : nat) (h : Heap) (childrenMap : gmap string (list loc))
    (queue ids : list string) : option (list string) :=
  match queue with
  | [] => Some ids
  | currentId :: rest =>
      match fuel with
      | O => None
      | S fuel' =>
          let children := default [] (childrenMap !! currentId) in
          let '(ids', queue') := foldl (visit h) (ids, rest) children in
          collect_loop fuel' h childrenMap queue' ids'
      end
  end.

Definition collectThreadIds_fuel (fuel : nat) (rootId : string) (s : TweetStore)
    : option (list string) :=
  collect_loop fuel (heap s) (childrenByThreadId s) [rootId] [rootId].

(** Every post reference held by the reply index, with repetitions. *)
Definition indexed_children (m : gmap string (list loc)) : list loc :=
  mjoin ((map_to_list m).*2).

(** One iteration for the root and one for every indexed child suffice
    (see [collect_loop_total]). *)
Definition collect_bound (s : TweetStore) : nat :=
  S (length (indexed_children (childrenByThreadId s))).

Definition collectThreadIds (rootId : string) (s : TweetStore) : list string :=
  default [] (collectThreadIds_fuel (collect_bound s) rootId s).

(** The body of [for (const id of threadIds)] in [deleteThread]. *)
Definition quote_step (byId : gmap string loc) (h : Heap) (i : string) : Heap :=
  match byId !! i with
  | Some p => touch byId (quoteId (h p)) dec_retweet h
  | None => h
  end.

Definition deleteThread (rootId : string) (s : TweetStore) : TweetStore :=
  let threadIds := collectThreadIds rootId s in
  let rootPost := postsById s !! rootId in
  let h1 := match rootPost with
            | Some r => touch (postsById s) (threadId (heap s r)) dec_replyCount (heap s)
            | None => heap s
            end in
  let h2 := foldl (quote_step (postsById s)) h1 threadIds in
  updatePostsById
    (with_posts (filter (λ p, id (h2 p) ∉ threadIds) (posts s)) (with_heap h2 s)).

(** ** Call sequences *)

Inductive Call :=
  | AddPost (post : loc) (t1 t2 : Z)
  | UpdatePost (postId : string) (updates : PostUpdates) (now : Z)
  | DeletePost (postId : string)
  | DeleteThread (rootId : string)
  | SetAllSettings (newPosts : list loc).

Definition call (s : TweetStore) (c : Call) : TweetStore :=
  match c with
  | AddPost post t1 t2 => addPost post t1 t2 s
  | UpdatePost postId updates now => updatePost postId updates now s
  | DeletePost postId => deletePost postId s
  | DeleteThread rootId => deleteThread rootId s
  | SetAllSettings newPosts => setAllSettings newPosts s
  end.

Definition run (cs : list Call) (s : TweetStore) : TweetStore :=
  foldl call s cs.

(** ** Stated properties *)

(** The indices are what a rebuild from the current collection gives. *)
Definition indexed (s : TweetStore) : Prop :=
  postsById s = build_postsById (heap s) (posts s) ∧
  childrenByThreadId s = build_childMap (heap s) (posts s) ∧
  quotesById s = build_quoteMap (heap s) (posts s).

(** The posts of the collection have pairwise distinct ids. *)
Definition unique_ids (h : Heap) (ps : list loc) : Prop :=
  NoDup ((λ p, id (h p)) <$> ps).

(** Index consistency in the strong form: every post is found under its
    id, and both adjacency indices list exactly the posts that carry the
    key, in collection order. *)
Definition indices_exact (s : TweetStore) : Prop :=
  (∀ p, p ∈ posts s → postsById s !! id (heap s p) = Some p) ∧
  (∀ t, getReplies t s = filter (λ p, threadId (heap s p) = Some t) (posts s)) ∧
  (∀ q, getQuotePosts q s = filter (λ p, quoteId (heap s p) = Some q) (posts s)).

(** Counters that are absent or not negative. *)
Definition nonneg (o : option Z) : Prop :=
  match o with
  | Some z => (0 ≤ z)%Z
  | None => True
  end.

Definition counters_ok (p : TweetWidgetPost) : Prop :=
  nonneg (replyCount p) ∧ nonneg (retweet p).

(** The objects that a call hands to the store. *)
Definition inserted (c : Call) : list loc :=
  match c with
  | AddPost post _ _ => [post]
  | SetAllSettings newPosts => newPosts
  | _ => []
  end.

(** A call that does not assign a negative counter through [updates]. *)
Definition call_nonneg (c : Call) : Prop :=
  match c with
  | UpdatePost _ u _ =>
      (∀ o, u_replyCount u = Some o → nonneg o) ∧
      (∀ o, u_retweet u = Some o → nonneg o)
  | _ => True
  end.

Definition is_setAllSettings (c : Call) : bool :=
  match c with
  | SetAllSettings _ => true
  | _ => false
  end.

(** The reply edges that the traversal follows: [b] is the id of a post
    listed under [a] in the reply index. *)
Definition child_edge (h : Heap) (m : gmap string (list loc)) (a b : string) : Prop :=
  ∃ c, c ∈ default [] (m !! a) ∧ id (h c) = b.

Definition reply_edge (s : TweetStore) : relation string :=
  child_edge (heap s) (childrenByThreadId s).

(** [x] is [rootId] or is reached from it along reply edges. *)
Definition in_thread (s : TweetStore) (rootId x : string) : Prop :=
  rtc (reply_edge s) rootId x.

(** The invariant of the traversal loop for the root [root]: the visited
    ids are distinct and reached from the root, the queue is part of them,
    and the children of every visited id that left the queue are visited. *)
Definition loop_inv (h : Heap) (m : gmap string (list loc)) (root : string)
    (queue ids : list string) : Prop :=
  root ∈ ids ∧ NoDup ids ∧
  (∀ x, x ∈ queue → x ∈ ids) ∧
  (∀ x, x ∈ ids → rtc (child_edge h m) root x) ∧
  (∀ x, x ∈ ids → x ∈ queue ∨ ∀ y, child_edge h m x y → y ∈ ids).

(** The ids that can ever enter the queue after the root. *)
Definition child_ids (h : Heap) (m : gmap string (list loc)) : gset string :=
  list_to_set ((λ c, id (h c)) <$> indexed_children m).

(** The post that the root post replies to, as [deleteThread] looks it up. *)
Definition root_parent (rootId : string) (s : TweetStore) : option loc :=
  postsById s !! rootId ≫= λ r,
  truthy (threadId (heap s r)) ≫= λ t, postsById s !! t.

(** The post that the post with id [i] quotes, as [deleteThread] looks it up. *)
Definition quote_target (s : TweetStore) (i : string) : option loc :=
  postsById s !! i ≫= λ p,
  truthy (quoteId (heap s p)) ≫= λ q, postsById s !! q.

(** [Math.max(0, (x || 0) - 1)] *)
Definition dec_counter (o : option Z) : option Z :=
  Some (Z.max 0 (or0 o - 1)).

(** The posts that [deleteThread] removes, and those of them that quote
    the post [T]. *)
Definition deleted_posts (rootId : string) (s : TweetStore) : list loc :=
  filter (λ p, id (heap s p) ∈ collectThreadIds rootId s) (posts s).

Definition deleted_quoters (rootId : string) (s : TweetStore) (T : loc) : list loc :=
  filter (λ p, truthy (quoteId (heap s p)) = Some (id (heap s T)))
         (deleted_posts rootId s).

(** No id is its own descendant in the reply index. *)
Definition reply_forest (s : TweetStore) : Prop :=
  ∀ x, ¬ tc (reply_edge s) x x.

(** The effect of [deleteThread] on the counters of the surviving posts
    with exact decrements: 1 for the post that the root replies to, the
    number of deleted quoters for a quoted post, nothing otherwise. *)
Definition deleteThread_exact (rootId : string) (s : TweetStore) : Prop :=
  let s' := deleteThread rootId s in
  ∀ T, T ∈ posts s' →
    let k := length (deleted_quoters rootId s T) in
    (root_parent rootId s = Some T →
       or0 (replyCount (heap s' T)) = or0 (replyCount (heap s T)) - 1)%Z ∧
    (root_parent rootId s ≠ Some T →
       replyCount (heap s' T) = replyCount (heap s T)) ∧
    (or0 (retweet (heap s' T)) = or0 (retweet (heap s T)) - Z.of_nat k)%Z ∧
    (k = 0%nat → retweet (heap s' T) = retweet (heap s T)).

(** ** Example stores *)

Definition example_post (i : string) (thread quote : option string)
    : TweetWidgetPost :=
  {| id := i; text := ""; threadId := thread; quoteId := quote;
     replyCount := None; retweet := None; updated := 0 |}.

(** Every object has the id "a". *)
Definition twins : Heap := λ _, example_post "a" None None.

(** A target "t" and a post "q" that replies to it and quotes it. *)
Definition quoting : Heap := λ l,
  match l with
  | 0 => example_post "t" None None
  | _ => example_post "q" (Some "t") (Some "t")
  end.

Definition quoting_store : TweetStore :=
  run [AddPost 0 10 10; AddPost 1 20 21] (newTweetStore quoting []).

(** Three roots "p", "o" and "x" and a reply "r" under "p". *)
Definition family : Heap := λ l,
  match l with
  | 0 => example_post "p" None None
  | 1 => example_post "o" None None
  | 2 => example_post "r" (Some "p") None
  | _ => example_post "x" None None
  end.

Definition family_store : TweetStore :=
  run [AddPost 0 10 10; AddPost 1 20 20; AddPost 2 30 30] (newTweetStore family []).

Definition move_thread (parent : string) : PostUpdates :=
  {| u_text := None; u_threadId := Some (Some parent); u_quoteId := None;
     u_replyCount := None; u_retweet := None; u_updated := None |}.

Definition set_replyCount (z : Z) : PostUpdates :=
  {| u_text := None; u_threadId := None; u_quoteId := None;
     u_replyCount := Some (Some z); u_retweet := None; u_updated := None |}.

(** A thread "b" <- "c" whose root replies to a post "gone" that is not in
    the store. *)
Definition orphans : Heap := λ l,
  match l with
  | 0 => example_post "b" (Some "gone") None
  | _ => example_post "c" (Some "b") None
  end.

Definition orphan_store : TweetStore := newTweetStore orphans [1; 0].

(** Two posts that reply to each other. *)
Definition cycle : Heap := λ l,
  match l with
  | 0 => example_post "a" (Some "b") None
  | _ => example_post "b" (Some "a") None
  end.

Definition cycle_store : TweetStore := newTweetStore cycle [1; 0].

(** The reply "r" of "p" is deleted, which takes [replyCount] of "p" back
    to 0; then "x" is inserted as a root and moved under "p" by
    [updatePost], which counts nothing: "p" has the reply "x" and the
    [replyCount] 0. *)
Definition drifted_store : TweetStore :=
  run [DeletePost "r"; AddPost 3 40 40; UpdatePost "x" (move_thread "p") 50]
      family_store.

(** ** Resolved links *)

(** The post that [post] replies to: [postsById.get(post.threadId)] behind
    [if (post.threadId)]. *)
Definition post_parent (post : loc) (s : TweetStore) : option loc :=
  truthy (threadId (heap s post)) ≫= λ t, postsById s !! t.

(** The post that [post] quotes: [postsById.get(post.quoteId)] behind
    [if (post.quoteId)]. *)
Definition post_target (post : loc) (s : TweetStore) : option loc :=
  truthy (quoteId (heap s post)) ≫= λ q, postsById s !! q.

(** ** Counters against the live relations *)

(** No counter of a post of the store is above the number of posts that
    reply to it, respectively quote it. *)
Definition counts_bounded (s : TweetStore) : Prop :=
  ∀ l, l ∈ posts s →
    (or0 (replyCount (heap s l)) ≤ Z.of_nat (length (getReplies (id (heap s l)) s)))%Z ∧
    (or0 (retweet (heap s l)) ≤ Z.of_nat (length (getQuotePosts (id (heap s l)) s)))%Z.

(** Updates that leave the links and the counters alone. *)
Definition content_only (u : PostUpdates) : Prop :=
  u_threadId u = None ∧ u_quoteId u = None ∧
  u_replyCount u = None ∧ u_retweet u = None.

(** A call that keeps the counters honest in the store [s]: an insertion
    under an id that no post has, of a post whose own counters are absent
    or 0; an update of content only; a deletion. *)
Definition call_tidy (s : TweetStore) (c : Call) : Prop :=
  match c with
  | AddPost post _ _ =>
      Forall (λ p, id (heap s p) ≠ id (heap s post)) (posts s) ∧
      (or0 (replyCount (heap s post)) ≤ 0)%Z ∧
      (or0 (retweet (heap s post)) ≤ 0)%Z
  | UpdatePost _ u _ => content_only u
  | DeletePost _ => True
  | DeleteThread _ => True
  | SetAllSettings _ => False
  end.

Fixpoint tidy_run (s : TweetStore) (cs : list Call) : Prop :=
  match cs with
  | [] => True
  | c :: cs' => call_tidy s c ∧ tidy_run (call s c) cs'
  end.

(** ** The Gemini request (first part of the file) *)

(** Modelled from the spec: the context type of [LLMProvider] is declared
    in [../llmManager], which is not among the sources.  [generateReply]
    reads the fields below; [thread] is [None] when [context.thread] is
    not an array. *)
Record ThreadItem := mkItem {
  role : string;
  content : string;
}.

Record ReplyContext := mkContext {
  tweetText : string;
  thread : option (list ThreadItem);
}.

(** An entry of [contents]: [{ role?, parts: [{ text }] }]. *)
Record GeminiContent := mkContent {
  c_role : option string;
  c_text : string;
}.

(** [pat] at the start of [s]: what follows it. *)
Fixpoint strip_prefix (pat s : string) : option string :=
  match pat with
  | EmptyString => Some s
  | String c pat' =>
      match s with
      | EmptyString => None
      | String d s' => if decide (c = d) then strip_prefix pat' s' else None
      end
  end.

(** The first occurrence of [pat] in [s] ([indexOf]): the text before it
    and the text after it. *)
Fixpoint find_first (pat s : string) : option (string * string) :=
  match strip_prefix pat s with
  | Some after => Some (EmptyString, after)
  | None =>
      match s with
      | EmptyString => None
      | String c s' =>
          match find_first pat s' with
          | Some (before, after) => Some (String c before, after)
          | None => None
          end
      end
  end.

(** The replacement text of [String.prototype.replace] for a string
    pattern (no captures): [$$] is a dollar sign, [$&] the matched text,
    [$`] the text before the match, [$'] the text after it, and any other
    [$] stands for itself.  Strings are UTF-8 bytes; the pattern and the
    dollar forms are ASCII, so this is the replacement on UTF-16 code
    units for well-formed text. *)
Fixpoint substitute (matched before after template : string) : string :=
  match template with
  | EmptyString => EmptyString
  | String c rest =>
      if decide (c = "$"%char) then
        match rest with
        | String d rest' =>
            if decide (d = "$"%char) then
              String "$" (substitute matched before after rest')
            else if decide (d = "&"%char) then
              matched +:+ substitute matched before after rest'
            else if decide (d = "`"%char) then
              before +:+ substitute matched before after rest'
            else if decide (d = "'"%char) then
              after +:+ substitute matched before after rest'
            else String "$" (substitute matched before after rest)
        | EmptyString => String "$" EmptyString
        end
      else String c (substitute matched before after rest)
  end.

(** [s.replace(pat, replacement)] with two strings. *)
Definition js_replace (s pat replacement : string) : string :=
  match find_first pat s with
  | Some (before, after) =>
      before +:+ substitute pat before after replacement +:+ after
  | None => s
  end.

Fixpoint has_dollar (s : string) : bool :=
  match s with
  | EmptyString => false
  | String c s' => if decide (c = "$"%char) then true else has_dollar s'
  end.

(** [geminiPrompt.replace('{tweet}', context.tweetText)]; the template
    [geminiPrompt] is imported from [./tweetReplyPrompt] and is a
    parameter here. *)
Definition fill_prompt (geminiPrompt tweet : string) : string :=
  js_replace geminiPrompt "{tweet}" tweet.

Definition gemini_role (item : ThreadItem) : string :=
  if decide (role item = "assistant") then "model" else "user".

(** The [contents] of the request body that [generateReply] builds. *)
Definition build_contents (geminiPrompt : string) (prompt : option string)
    (context : ReplyContext) : list GeminiContent :=
  match truthy prompt with
  | Some p => [ {| c_role := None; c_text := p |} ]
  | None =>
      match thread context with
      | Some items =>
          if decide (1 < length items)%nat then
            ((λ item, {| c_role := Some (gemini_role item);
                         c_text := content item |}) <$> items)
            ++ [ {| c_role := Some "user";
                    c_text := fill_prompt geminiPrompt (tweetText context) |} ]
          else
            [ {| c_role := None;
                 c_text := fill_prompt geminiPrompt (tweetText context) |} ]
      | None =>
          [ {| c_role := None;
               c_text := fill_prompt geminiPrompt (tweetText context) |} ]
      end
  end.

(** The frame of [updatePost] as seen from a post [R] of the store: a call
    with the id of [R] changes no object other than [R]. *)
Definition updatePost_touches_only (s : TweetStore) (R : loc) : Prop :=
  ∀ u now l, l ≠ R →
    heap (updatePost (id (heap s R)) u now s) l = heap s l.

(** A decidable fact about a concrete store, by evaluation. *)
Ltac decide_by_compute :=
  apply (bool_decide_unpack _); vm_compute; reflexivity.

(** ** The rebuilt indices *)

Lemma alter_heap (f : TweetWidgetPost → TweetWidgetPost) (x l : loc) (h : Heap) :
  alter f x h l = if decide (x = l) then f (h l) else h l.
Proof.
  case_decide as E.
  - subst. apply fn_lookup_alter.
  - by apply fn_lookup_alter_ne.
Qed.

Lemma build_postsById_snoc h ps p :
  build_postsById h (ps ++ [p]) = <[id (h p) := p]> (build_postsById h ps).
Proof. unfold build_postsById. by rewrite foldl_snoc. Qed.

Lemma build_postsById_lookup h ps i :
  build_postsById h ps !! i = last (filter (λ p, id (h p) = i) ps).
Proof.
  induction ps as [|p ps IH] using rev_ind; [done|].
  rewrite build_postsById_snoc, filter_app, lookup_insert.
  case_decide as E.
  - rewrite filter_cons_True, filter_nil by done. by rewrite last_snoc.
  - rewrite filter_cons_False, filter_nil, app_nil_r by done. exact IH.
Qed.

Lemma build_postsById_ext h h' ps :
  (∀ l, id (h' l) = id (h l)) → build_postsById h' ps = build_postsById h ps.
Proof.
  intros E. apply map_eq. intros i. rewrite !build_postsById_lookup.
  f_equal. apply list_filter_iff. intros p. by rewrite E.
Qed.

Lemma build_postsById_elem h ps i p :
  build_postsById h ps !! i = Some p → p ∈ ps ∧ id (h p) = i.
Proof.
  rewrite build_postsById_lookup. intros H%last_Some_elem_of.
  apply list_elem_of_filter in H. tauto.
Qed.

Lemma build_postsById_None h ps i :
  build_postsById h ps !! i = None ↔ ∀ p, p ∈ ps → id (h p) ≠ i.
Proof.
  rewrite build_postsById_lookup, last_None. split.
  - intros E p Hp Hi. exact (filter_nil_not_elem_of _ _ p E Hi Hp).
  - intros H. destruct (filter _ ps) as [|p l] eqn:E; [done|].
    assert (Hp : p ∈ filter (λ p, id (h p) = i) ps) by (rewrite E; left).
    apply list_elem_of_filter in Hp as [Hi Hp]. by destruct (H p Hp).
Qed.

Lemma build_postsById_unique h ps p :
  unique_ids h ps → p ∈ ps → build_postsById h ps !! id (h p) = Some p.
Proof.
  unfold unique_ids. induction ps as [|q ps IH] using rev_ind; [by inversion 2|].
  rewrite fmap_app, NoDup_app. simpl. intros (ND & Hdisj & _).
  rewrite build_postsById_snoc, elem_of_app, list_elem_of_singleton.
  intros [Hp | ->].
  - rewrite lookup_insert_ne; [by apply IH|].
    intros E. apply (Hdisj (id (h p))).
    + apply list_elem_of_fmap. by exists p.
    + rewrite E. left.
  - apply lookup_insert_eq.
Qed.

Section adjacency.
Context (key : loc → option string).

Lemma build_adj_lookup ps k :
  build_adj key ps !! k =
    match filter (λ p, truthy (key p) = Some k) ps with
    | [] => None
    | l => Some l
    end.
Proof.
  induction ps as [|p ps IH] using rev_ind; [done|].
  unfold build_adj in *. rewrite foldl_snoc, filter_app.
  unfold push_under at 1. destruct (truthy (key p)) as [k'|] eqn:E.
  - rewrite lookup_partial_alter. case_decide as Ek.
    + subst k'. rewrite IH, filter_cons_True, filter_nil by done.
      by destruct (filter _ ps).
    + rewrite IH, filter_cons_False, filter_nil, app_nil_r by congruence. done.
  - rewrite IH, filter_cons_False, filter_nil, app_nil_r by congruence. done.
Qed.

Lemma build_adj_default ps k :
  default [] (build_adj key ps !! k) = filter (λ p, truthy (key p) = Some k) ps.
Proof. rewrite build_adj_lookup. by destruct (filter _ ps). Qed.
End adjacency.

Lemma truthy_Some o k : truthy o = Some k ↔ o = Some k ∧ k ≠ EmptyString.
Proof.
  unfold truthy. destruct o as [k'|].
  - case_decide as E; split.
    + discriminate.
    + intros [[= ->] Hk]. by destruct Hk.
    + intros [= ->]. done.
    + intros [[= ->] _]. done.
  - split; [discriminate | intros [[=] _]].
Qed.

Lemma build_childMap_default h ps t :
  default [] (build_childMap h ps !! t) =
    filter (λ p, truthy (threadId (h p)) = Some t) ps.
Proof. apply (build_adj_default (λ p, threadId (h p))). Qed.

Lemma build_quoteMap_default h ps q :
  default [] (build_quoteMap h ps !! q) =
    filter (λ p, truthy (quoteId (h p)) = Some q) ps.
Proof. apply (build_adj_default (λ p, quoteId (h p))). Qed.

Lemma build_childMap_nonempty h ps k : build_childMap h ps !! k ≠ Some [].
Proof.
  unfold build_childMap. rewrite build_adj_lookup. by destruct (filter _ ps).
Qed.

Lemma build_quoteMap_nonempty h ps k : build_quoteMap h ps !! k ≠ Some [].
Proof.
  unfold build_quoteMap. rewrite build_adj_lookup. by destruct (filter _ ps).
Qed.

Lemma indexed_updatePostsById s : indexed (updatePostsById s).
Proof. by repeat split. Qed.

Lemma updatePostsById_indexed s : indexed s → updatePostsById s = s.
Proof.
  destruct s as [h ps b c q]. unfold indexed, updatePostsById, updateChildrenMap.
  simpl. intros (-> & -> & ->). done.
Qed.

Lemma indexed_updatePost i u now s : indexed s → indexed (updatePost i u now s).
Proof.
  intros Hs. unfold updatePost. destruct (postsById s !! i); [|done].
  apply indexed_updatePostsById.
Qed.

Lemma indexed_call s c : indexed s → indexed (call s c).
Proof.
  intros Hs. destruct c; simpl; try apply indexed_updatePostsById.
  by apply indexed_updatePost.
Qed.

Lemma indexed_run cs s : indexed s → indexed (run cs s).
Proof.
  revert s. induction cs as [|c cs IH]; intros s Hs; [done|].
  apply IH. by apply indexed_call.
Qed.

Lemma indexed_lookup s i :
  indexed s → postsById s !! i = last (filter (λ p, id (heap s p) = i) (posts s)).
Proof. intros (-> & _). apply build_postsById_lookup. Qed.

Lemma indexed_lookup_elem s i p :
  indexed s → postsById s !! i = Some p → p ∈ posts s ∧ id (heap s p) = i.
Proof. intros (-> & _). apply build_postsById_elem. Qed.

Lemma indexed_lookup_unique s p :
  indexed s → unique_ids (heap s) (posts s) → p ∈ posts s →
  postsById s !! id (heap s p) = Some p.
Proof. intros (-> & _). apply build_postsById_unique. Qed.

Lemma indexed_getReplies s t :
  indexed s →
  getReplies t s = filter (λ p, truthy (threadId (heap s p)) = Some t) (posts s).
Proof. intros (_ & E & _). unfold getReplies. rewrite E. apply build_childMap_default. Qed.

Lemma indexed_getQuotePosts s q :
  indexed s →
  getQuotePosts q s = filter (λ p, truthy (quoteId (heap s p)) = Some q) (posts s).
Proof. intros (_ & _ & E). unfold getQuotePosts. rewrite E. apply build_quoteMap_default. Qed.

(** ** How the mutations act on the heap *)

Lemma touch_lookup byId key f (h : Heap) l :
  touch byId key f h l =
    if decide (truthy key ≫= (λ k, byId !! k) = Some l) then f (h l) else h l.
Proof.
  unfold touch. destruct (truthy key) as [k|]; simpl; [|done].
  destruct (byId !! k) as [x|]; simpl.
  - rewrite alter_heap. repeat case_decide; congruence.
  - done.
Qed.

Lemma touch_pres (Q : TweetWidgetPost → Prop) byId key f (h : Heap) l :
  (∀ p, Q p → Q (f p)) → Q (h l) → Q (touch byId key f h l).
Proof. intros Hf Hl. rewrite touch_lookup. case_decide; auto. Qed.

Lemma quote_loop_pres (Q : TweetWidgetPost → Prop) byId ids (h : Heap) l :
  (∀ p, Q p → Q (dec_retweet p)) → Q (h l) → Q (foldl (quote_step byId) h ids l).
Proof.
  intros Hf. revert h. induction ids as [|i ids IH]; intros h Hl; [done|].
  simpl. apply IH. unfold quote_step. destruct (byId !! i); [|done].
  by apply touch_pres.
Qed.

Lemma heap_updatePostsById s : heap (updatePostsById s) = heap s.
Proof. done. Qed.

Lemma posts_updatePostsById s : posts (updatePostsById s) = posts s.
Proof. done. Qed.

(** What a call does to one object, for a property that the counter
    updates and the field assignment preserve. *)
Lemma call_pres (Q : TweetWidgetPost → Prop) s c l :
  (∀ t p, Q p → Q (inc_replyCount t p)) →
  (∀ t p, Q p → Q (inc_retweet t p)) →
  (∀ p, Q p → Q (dec_replyCount p)) →
  (∀ p, Q p → Q (dec_retweet p)) →
  (∀ i u t p, c = UpdatePost i u t → Q p → Q (set_updated t (assign p u))) →
  Q (heap s l) → Q (heap (call s c) l).
Proof.
  intros H1 H2 H3 H4 H5 Hl. destruct c; simpl.
  - apply touch_pres; [apply H2|]. apply touch_pres; [apply H1|done].
  - unfold updatePost. destruct (postsById s !! postId) as [x|]; [|done].
    simpl. rewrite alter_heap. case_decide; [|done]. by eapply H5.
  - destruct (postsById s !! postId) as [x|]; [|done].
    apply touch_pres; [done|]. by apply touch_pres.
  - apply (quote_loop_pres Q); [done|].
    destruct (postsById s !! rootId) as [x|]; [|done]. by apply touch_pres.
  - done.
Qed.

(** No call changes the id of an object. *)
Lemma id_call s c l : id (heap (call s c) l) = id (heap s l).
Proof. by apply (call_pres (λ p, id p = id (heap s l))). Qed.

Lemma id_run cs s l : id (heap (run cs s) l) = id (heap s l).
Proof.
  unfold run. revert s. induction cs as [|c cs IH]; intros s; [done|].
  simpl. by rewrite IH, id_call.
Qed.

(** ** Index consistency *)

(** C1, as stated: with an id inserted twice the index by id does not
    return the new post, although the store started with unique ids. *)
Lemma indices_exact_fails_on_duplicate_id :
  ∃ h ps cs, unique_ids h ps ∧ ¬ indices_exact (run cs (newTweetStore h ps)).
Proof.
  exists twins, [0], [AddPost 1 1 1]. split.
  - apply NoDup_singleton.
  - intros [H _]. specialize (H 1). vm_compute in H.
    assert (E : Some 0 = Some 1) by (apply H; left). discriminate.
Qed.

(** C1, amended: after every sequence of calls on a fresh store the
    indices equal a rebuild from the collection; [postsById] returns the
    last post of the collection with the given id, hence every post under
    its own id while the ids of the collection are unique; for a key that
    is not the empty string each adjacency index holds exactly the posts
    that carry the key, in collection order, and never an empty entry. *)
Theorem indices_match_rebuild h ps cs :
  let s := run cs (newTweetStore h ps) in
  indexed s ∧
  (∀ i, postsById s !! i = last (filter (λ p, id (heap s p) = i) (posts s))) ∧
  (unique_ids (heap s) (posts s) →
   ∀ p, p ∈ posts s → postsById s !! id (heap s p) = Some p) ∧
  (∀ t, t ≠ EmptyString →
   getReplies t s = filter (λ p, threadId (heap s p) = Some t) (posts s)) ∧
  (∀ q, q ≠ EmptyString →
   getQuotePosts q s = filter (λ p, quoteId (heap s p) = Some q) (posts s)) ∧
  (∀ k, childrenByThreadId s !! k ≠ Some [] ∧ quotesById s !! k ≠ Some []).
Proof.
  intros s.
  assert (Hs : indexed s) by apply indexed_run, indexed_updatePostsById.
  split; [done|]. split; [intros i; by apply indexed_lookup|].
  split; [intros U p Hp; by apply indexed_lookup_unique|].
  split; [|split].
  - intros t Ht. rewrite indexed_getReplies by done.
    apply list_filter_iff. intros p. rewrite truthy_Some. tauto.
  - intros q Hq. rewrite indexed_getQuotePosts by done.
    apply list_filter_iff. intros p. rewrite truthy_Some. tauto.
  - intros k. destruct Hs as (_ & -> & ->).
    split; [apply build_childMap_nonempty | apply build_quoteMap_nonempty].
Qed.

Lemma indices_match_rebuild_witness :
  let s := run [AddPost 2 30 30] (newTweetStore family [0; 1]) in
  unique_ids (heap s) (posts s) ∧ postsById s !! "r" = Some 2 ∧
  getReplies "p" s = [2].
Proof.
  intros s.
  destruct (indices_match_rebuild family [0; 1] [AddPost 2 30 30])
    as (_ & _ & Hid & Hrep & _).
  assert (U : unique_ids (heap s) (posts s)) by decide_by_compute.
  split; [exact U|]. split.
  - apply (Hid U 2). decide_by_compute.
  - rewrite Hrep by discriminate. vm_compute. reflexivity.
Defined.

(** ** Counters stay non-negative *)

Lemma counters_ok_call s c l :
  call_nonneg c → counters_ok (heap s l) → counters_ok (heap (call s c) l).
Proof.
  intros Hc. apply (call_pres counters_ok).
  - intros t p [H1 H2]. split; [|done]. simpl. unfold or0.
    destruct (replyCount p) as [z|]; simpl in *; [case_decide|]; lia.
  - intros t p [H1 H2]. split; [done|]. simpl. unfold or0.
    destruct (retweet p) as [z|]; simpl in *; [case_decide|]; lia.
  - intros p [H1 H2]. split; [|done]. simpl. lia.
  - intros p [H1 H2]. split; [done|]. simpl. lia.
  - intros i u t p -> [H1 H2]. destruct Hc as [Hr Hq]. split; simpl.
    + destruct (u_replyCount u) as [o|]; simpl; [by apply Hr|done].
    + destruct (u_retweet u) as [o|]; simpl; [by apply Hq|done].
Qed.

Lemma posts_call s c l :
  l ∈ posts (call s c) → l ∈ posts s ∨ l ∈ inserted c.
Proof.
  destruct c; simpl.
  - rewrite elem_of_cons, list_elem_of_singleton. tauto.
  - unfold updatePost. destruct (postsById s !! postId); simpl; tauto.
  - rewrite list_elem_of_filter. tauto.
  - rewrite list_elem_of_filter. tauto.
  - tauto.
Qed.

(** C3, as stated: [updatePost] may assign a negative counter. *)
Lemma counters_negative_after_update :
  ∃ h ps cs p,
    (∀ l, counters_ok (h l)) ∧
    forallb (λ c, negb (is_setAllSettings c)) cs = true ∧
    p ∈ posts (run cs (newTweetStore h ps)) ∧
    ¬ counters_ok (heap (run cs (newTweetStore h ps)) p).
Proof.
  exists twins, [0], [UpdatePost "a" (set_replyCount (-1)) 5], 0.
  split; [by intros l; split|]. split; [done|]. split; [left|].
  intros [H _]. vm_compute in H. by apply H.
Qed.

(** C3, amended: when every post of the initial collection and every post
    handed to the store later has counters that are absent or at least 0,
    and no [updatePost] assigns a negative counter, every post of the
    store has counters that are absent or at least 0 after every call. *)
Theorem counters_stay_nonneg h ps cs :
  (∀ l, l ∈ ps ++ concat (map inserted cs) → counters_ok (h l)) →
  Forall call_nonneg cs →
  ∀ l, l ∈ posts (run cs (newTweetStore h ps)) →
       counters_ok (heap (run cs (newTweetStore h ps)) l).
Proof.
  change h with (heap (newTweetStore h ps)) at 1.
  change ps with (posts (newTweetStore h ps)) at 1.
  generalize (newTweetStore h ps). unfold run.
  induction cs as [|c cs IH]; intros s Hh Hcs l Hl; simpl in *.
  - apply Hh. rewrite app_nil_r. done.
  - inversion Hcs as [|? ? Hc Hcs']; subst.
    apply IH; [|done|done].
    intros l' Hl'. apply counters_ok_call; [done|]. apply Hh.
    rewrite elem_of_app in Hl'. rewrite !elem_of_app.
    destruct Hl' as [Hl'%posts_call | Hl']; tauto.
Qed.

Lemma counters_stay_nonneg_witness :
  counters_ok
    (heap (run [AddPost 0 10 10; AddPost 1 20 21; DeletePost "q"; DeletePost "q"]
               (newTweetStore quoting [])) 0).
Proof.
  apply (counters_stay_nonneg quoting []
           [AddPost 0 10 10; AddPost 1 20 21; DeletePost "q"; DeletePost "q"]).
  - intros l _. destruct l as [|l]; by split.
  - by repeat constructor.
  - decide_by_compute.
Defined.

(** ** Missing ids *)

(** C7: when no post of the store has the id, [getPostById] returns
    nothing, and [updatePost] and [deletePost] return the store as it was:
    the collection, every object and every index. *)
Theorem missing_id_is_noop s i :
  indexed s → (∀ p, p ∈ posts s → id (heap s p) ≠ i) →
  getPostById i s = None ∧
  (∀ u now, updatePost i u now s = s) ∧
  deletePost i s = s.
Proof.
  intros Hs Hi.
  assert (E : postsById s !! i = None).
  { destruct Hs as (-> & _). by apply build_postsById_None. }
  split; [done|]. split.
  - intros u now. unfold updatePost. by rewrite E.
  - unfold deletePost. rewrite E.
    assert (F : filter (λ p, id (heap s p) ≠ i) (posts s) = posts s).
    { clear E Hs. induction (posts s) as [|p l IH]; [done|].
      rewrite filter_cons_True by (apply Hi; left).
      f_equal. apply IH. intros q Hq. apply Hi. by right. }
    rewrite F. rewrite <- (updatePostsById_indexed s Hs) at 4.
    by destruct s.
Qed.

Lemma missing_id_is_noop_witness :
  getPostById "z" quoting_store = None ∧
  (∀ u now, updatePost "z" u now quoting_store = quoting_store) ∧
  deletePost "z" quoting_store = quoting_store.
Proof.
  apply (missing_id_is_noop quoting_store "z").
  - apply indexed_run, indexed_updatePostsById.
  - intros p Hp. replace (posts quoting_store) with [1; 0] in Hp by reflexivity.
    rewrite !elem_of_cons, elem_of_nil in Hp.
    destruct Hp as [-> | [-> | []]]; vm_compute; discriminate.
Defined.

(** ** Frame of [updatePost] *)

(** [updatePost] changes no object other than the post that the index
    returns for the id, whatever the fields say, and leaves the collection
    as it is. *)
Theorem updatePost_changes_one_post s i u now l :
  getPostById i s ≠ Some l →
  heap (updatePost i u now s) l = heap s l ∧
  posts (updatePost i u now s) = posts s.
Proof.
  unfold getPostById, updatePost. intros Hl.
  destruct (postsById s !! i) as [r|]; [|done]. simpl. split; [|done].
  rewrite alter_heap. case_decide; [congruence|done].
Qed.

(** The drift scenario: "r" is inserted under "p" and then moved under
    "o"; "p" keeps the count 1 and "o" is not counted up. *)
Lemma updatePost_changes_one_post_witness :
  let s' := updatePost "r" (move_thread "o") 40 family_store in
  replyCount (heap family_store 0) = Some 1%Z ∧
  threadId (heap s' 2) = Some "o" ∧
  (heap s' 0 = heap family_store 0 ∧ posts s' = posts family_store) ∧
  (heap s' 1 = heap family_store 1 ∧ posts s' = posts family_store).
Proof.
  intros s'. split; [reflexivity|]. split; [reflexivity|]. split.
  - apply (updatePost_changes_one_post family_store "r" (move_thread "o") 40 0).
    vm_compute. discriminate.
  - apply (updatePost_changes_one_post family_store "r" (move_thread "o") 40 1).
    vm_compute. discriminate.
Defined.

(** C8, as stated: the post meant by the id need not be the post that is
    updated.  After a second post with the id "a" is inserted, [R] is the
    new post in front of the collection; [updatePost] with its id and a
    new [threadId] leaves [R] as it was and rewrites the older post, which
    is the one [postsById] returns. *)
Lemma updatePost_rewrites_older_twin :
  ∃ s R,
    indexed s ∧ R ∈ posts s ∧
    heap (updatePost (id (heap s R)) (move_thread "o") 40 s) R = heap s R ∧
    ¬ updatePost_touches_only s R.
Proof.
  exists (addPost 1 5 5 (newTweetStore twins [0])), 1.
  split; [apply indexed_updatePostsById|]. split; [decide_by_compute|].
  split; [vm_compute; reflexivity|].
  intros H. specialize (H (move_thread "o") 40%Z 0).
  assert (E : threadId (heap (updatePost "a" (move_thread "o") 40
                                (addPost 1 5 5 (newTweetStore twins [0]))) 0)
              = Some "o") by (vm_compute; reflexivity).
  change (id (heap (addPost 1 5 5 (newTweetStore twins [0])) 1)) with "a" in H.
  rewrite H in E by discriminate. vm_compute in E. discriminate.
Qed.

(** C8, amended: in a store with consistent indices and pairwise distinct
    ids, for every post [R] of the collection, [updatePost] with the id of
    [R] resolves to [R], assigns the fields and the time stamp to [R], and
    changes no field of any other object, whatever the fields say about
    [threadId] and [quoteId]: no counter of an old or new parent or quote
    target is adjusted.  The collection stays as it is. *)
Theorem updatePost_changes_only_R s R u now :
  indexed s → unique_ids (heap s) (posts s) → R ∈ posts s →
  let s' := updatePost (id (heap s R)) u now s in
  getPostById (id (heap s R)) s = Some R ∧
  heap s' R = set_updated now (assign (heap s R) u) ∧
  (∀ l, l ≠ R → heap s' l = heap s l) ∧
  posts s' = posts s.
Proof.
  intros Hs U HR s'.
  assert (E : postsById s !! id (heap s R) = Some R)
    by (by apply indexed_lookup_unique).
  split; [done|]. unfold s', updatePost. rewrite E. simpl.
  split; [|split; [|done]].
  - by rewrite alter_heap, decide_True.
  - intros l Hl. rewrite alter_heap, decide_False; [done|]. congruence.
Qed.

(** The drift scenario: "r" is inserted under "p" (which counts 1) and
    moved under "o"; the call changes "r" alone. *)
Lemma updatePost_changes_only_R_witness :
  let s' := updatePost "r" (move_thread "o") 40 family_store in
  replyCount (heap family_store 0) = Some 1%Z ∧
  threadId (heap s' 2) = Some "o" ∧
  heap s' 0 = heap family_store 0 ∧
  heap s' 1 = heap family_store 1.
Proof.
  intros s'.
  destruct (updatePost_changes_only_R family_store 2 (move_thread "o") 40)
    as (_ & HR & Hframe & _).
  - apply indexed_run, indexed_updatePostsById.
  - decide_by_compute.
  - decide_by_compute.
  - change (id (heap family_store 2)) with "r" in HR, Hframe.
    split; [vm_compute; reflexivity|]. split.
    + unfold s'. rewrite HR. reflexivity.
    + split; apply Hframe; discriminate.
Defined.

(** ** Inserting an id twice *)

Lemma id_addPost post t1 t2 s l :
  id (heap (addPost post t1 t2 s) l) = id (heap s l).
Proof. apply (id_call s (AddPost post t1 t2)). Qed.

(** C9: when the id of the inserted post is already in the store, the
    post is put in front of the collection and [getPostById] still
    returns the post it returned before, which is a post of the old
    collection and so not the inserted object. *)
Theorem addPost_duplicate_id_keeps_old s post t1 t2 :
  indexed s →
  (∃ p0, p0 ∈ posts s ∧ id (heap s p0) = id (heap s post)) →
  let i := id (heap s post) in
  let s' := addPost post t1 t2 s in
  posts s' = post :: posts s ∧
  getPostById i s' = getPostById i s ∧
  ∃ old, getPostById i s' = Some old ∧ old ∈ posts s ∧
         id (heap s' old) = i ∧
         last (filter (λ p, id (heap s' p) = i) (posts s')) = Some old ∧
         (post ∉ posts s → old ≠ post).
Proof.
  intros Hs (p0 & Hp0 & Ep0) i s'.
  assert (Hs' : indexed s') by apply indexed_updatePostsById.
  assert (Eold : getPostById i s = last (filter (λ p, id (heap s p) = i) (posts s)))
    by (by apply indexed_lookup).
  assert (Enew : getPostById i s' = last (filter (λ p, id (heap s' p) = i) (posts s')))
    by (by apply indexed_lookup).
  assert (Efil : filter (λ p, id (heap s' p) = i) (posts s')
                 = post :: filter (λ p, id (heap s p) = i) (posts s)).
  { change (posts s') with (post :: posts s).
    rewrite filter_cons_True by apply id_addPost. f_equal.
    apply list_filter_iff. intros p. unfold s'. by rewrite id_addPost. }
  assert (Hin : p0 ∈ filter (λ p, id (heap s p) = i) (posts s))
    by (by apply list_elem_of_filter).
  destruct (last (filter (λ p, id (heap s p) = i) (posts s))) as [old|] eqn:El.
  2:{ apply last_None in El. rewrite El in Hin. by apply elem_of_nil in Hin. }
  assert (Enew' : getPostById i s' = Some old).
  { rewrite Enew, Efil, last_cons, El. done. }
  apply last_Some_elem_of, list_elem_of_filter in El as [Ei Hold].
  split; [done|]. split; [congruence|]. exists old.
  split; [done|]. split; [done|]. split; [unfold s'; by rewrite id_addPost|].
  split; [congruence|]. intros Hn ->. done.
Qed.

Lemma addPost_duplicate_id_keeps_old_witness :
  let s := newTweetStore twins [0] in
  let s' := addPost 1 5 5 s in
  posts s' = [1; 0] ∧ getPostById "a" s' = Some 0.
Proof.
  intros s s'.
  destruct (addPost_duplicate_id_keeps_old s 1 5 5) as (E & _ & old & Eo & _).
  - apply indexed_updatePostsById.
  - exists 0. split; [left|reflexivity].
  - split; [exact E|]. reflexivity.
Defined.

(** ** Timestamps on counter repair *)

Lemma updated_deletePost i s l :
  updated (heap (deletePost i s) l) = updated (heap s l).
Proof.
  simpl. destruct (postsById s !! i) as [x|]; [|done].
  apply (touch_pres (λ p, updated p = updated (heap s l))); [done|].
  by apply (touch_pres (λ p, updated p = updated (heap s l))).
Qed.

Lemma updated_deleteThread r s l :
  updated (heap (deleteThread r s) l) = updated (heap s l).
Proof.
  simpl. apply (quote_loop_pres (λ p, updated p = updated (heap s l))); [done|].
  destruct (postsById s !! r) as [x|]; [|done].
  by apply (touch_pres (λ p, updated p = updated (heap s l))).
Qed.

(** C2 on the code: [deletePost] and [deleteThread] never write
    [updated], also when they change a counter.  In [quoting_store] the
    post "t" has one reply and one quote, counted at time 21; deleting
    "q" sets both counters to 0 and leaves the timestamp at 21. *)
Theorem delete_changes_counter_not_updated :
  (∀ i s l, updated (heap (deletePost i s) l) = updated (heap s l)) ∧
  (∀ r s l, updated (heap (deleteThread r s) l) = updated (heap s l)) ∧
  replyCount (heap quoting_store 0) = Some 1%Z ∧
  retweet (heap quoting_store 0) = Some 1%Z ∧
  updated (heap quoting_store 0) = 21%Z ∧
  replyCount (heap (deletePost "q" quoting_store) 0) = Some 0%Z ∧
  retweet (heap (deletePost "q" quoting_store) 0) = Some 0%Z ∧
  updated (heap (deletePost "q" quoting_store) 0) = 21%Z ∧
  retweet (heap (deleteThread "q" quoting_store) 0) = Some 0%Z ∧
  updated (heap (deleteThread "q" quoting_store) 0) = 21%Z.
Proof.
  split; [exact updated_deletePost|]. split; [exact updated_deleteThread|].
  repeat split; vm_compute; reflexivity.
Qed.

(** ** The traversal *)

Section traversal.
Context (h : Heap) (m : gmap string (list loc)).

(** The inner loop appends the same new ids to the visited set and to
    the queue: the ids of the children that were not visited, once each. *)
Lemma visit_fold cs ids queue :
  ∃ new,
    foldl (visit h) (ids, queue) cs = (ids ++ new, queue ++ new) ∧
    NoDup new ∧
    ∀ x, x ∈ new ↔ (x ∉ ids) ∧ (∃ c, c ∈ cs ∧ id (h c) = x).
Proof.
  revert ids queue. induction cs as [|c cs IH]; intros ids queue; simpl.
  - exists []. rewrite !app_nil_r. split; [done|]. split; [constructor|].
    intros x. rewrite elem_of_nil. split; [done|].
    intros (_ & c & Hc & _). by apply elem_of_nil in Hc.
  - case_decide as Hin.
    + destruct (IH ids queue) as (new & E & ND & Hnew). exists new.
      split; [done|]. split; [done|]. intros x. rewrite Hnew.
      split; intros (Hx & c' & Hc' & Ec').
      * split; [done|]. exists c'. split; [by right|done].
      * split; [done|]. apply elem_of_cons in Hc' as [-> | Hc'].
        -- congruence.
        -- by exists c'.
    + destruct (IH (ids ++ [id (h c)]) (queue ++ [id (h c)]))
        as (new & E & ND & Hnew).
      exists (id (h c) :: new). rewrite E, <- !app_assoc. simpl.
      split; [done|]. split.
      * constructor; [|done]. rewrite Hnew, elem_of_app, list_elem_of_singleton.
        tauto.
      * intros x. rewrite elem_of_cons, Hnew, elem_of_app, list_elem_of_singleton.
        split.
        -- intros [-> | (Hx & c' & Hc' & Ec')].
           ++ split; [done|]. exists c. split; [left|done].
           ++ split; [tauto|]. exists c'. split; [by right|done].
        -- intros (Hx & c' & Hc' & Ec').
           destruct (decide (x = id (h c))) as [->|Hne]; [by left|right].
           split; [tauto|]. apply elem_of_cons in Hc' as [-> | Hc']; [done|].
           by exists c'.
Qed.

(** The result extends the visited set, and the loop needs exactly one
    iteration for every queued id and every id that it adds. *)
Lemma collect_loop_count fuel queue ids r :
  collect_loop fuel h m queue ids = Some r →
  ∃ extra, r = ids ++ extra ∧
    (length queue + length extra ≤ fuel)%nat ∧
    ∀ fuel', (length queue + length extra ≤ fuel')%nat →
             collect_loop fuel' h m queue ids = Some r.
Proof.
  revert queue ids r. induction fuel as [|fuel IH]; intros queue ids r.
  - destruct queue as [|cur rest]; [|done]. intros [= <-].
    exists []. rewrite app_nil_r. split; [done|]. split; [done|].
    intros fuel' _. by destruct fuel'.
  - destruct queue as [|cur rest].
    + intros [= <-]. exists []. rewrite app_nil_r. split; [done|].
      split; [simpl; lia|]. intros fuel' _. by destruct fuel'.
    + simpl.
      destruct (visit_fold (default [] (m !! cur)) ids rest) as (new & E & _).
      rewrite E. intros Hr. destruct (IH _ _ _ Hr) as (extra & -> & Hlen & Hall).
      exists (new ++ extra). split; [by rewrite app_assoc|].
      rewrite length_app in *. split; [simpl; lia|].
      intros [|fuel'] Hf; [simpl in Hf; lia|]. simpl. rewrite E.
      apply Hall. simpl in Hf. lia.
Qed.

Lemma child_ids_elem cur c :
  c ∈ default [] (m !! cur) → id (h c) ∈ child_ids h m.
Proof.
  intros Hc. unfold child_ids, indexed_children.
  apply elem_of_list_to_set, list_elem_of_fmap. exists c. split; [done|].
  destruct (m !! cur) as [l|] eqn:E; [|by apply elem_of_nil in Hc].
  apply list_elem_of_join. exists l. split; [done|].
  apply list_elem_of_fmap. exists (cur, l). split; [done|].
  by apply elem_of_map_to_list.
Qed.

(** Every iteration takes one id from the queue or from the ids not yet
    visited, so the loop ends. *)
Lemma collect_loop_ends fuel queue ids :
  (length queue + size (child_ids h m ∖ list_to_set ids) ≤ fuel)%nat →
  is_Some (collect_loop fuel h m queue ids).
Proof.
  revert queue ids. induction fuel as [|fuel IH]; intros queue ids Hf.
  - destruct queue; [by eexists|simpl in Hf; lia].
  - destruct queue as [|cur rest]; [by eexists|]. simpl.
    destruct (visit_fold (default [] (m !! cur)) ids rest)
      as (new & E & ND & Hnew).
    rewrite E. apply IH.
    assert (Hsub : list_to_set new ⊆ child_ids h m ∖ list_to_set (C:=gset string) ids).
    { intros x. rewrite elem_of_list_to_set, Hnew, elem_of_difference,
        elem_of_list_to_set.
      intros (Hx & c & Hc & <-). split; [|done]. by eapply child_ids_elem. }
    assert (Ediff : child_ids h m ∖ list_to_set (ids ++ new)
                    = (child_ids h m ∖ list_to_set ids) ∖ list_to_set (C:=gset string) new).
    { rewrite list_to_set_app_L. symmetry. apply difference_difference_l_L. }
    rewrite Ediff, size_difference by done.
    pose proof (subseteq_size _ _ Hsub) as Hle.
    rewrite size_list_to_set in * by done.
    rewrite length_app. simpl in Hf. lia.
Qed.

Lemma size_list_to_set_le (l : list string) :
  (size (list_to_set (C:=gset string) l) ≤ length l)%nat.
Proof.
  induction l as [|x l IH]; [by rewrite list_to_set_nil, size_empty|].
  rewrite list_to_set_cons, size_union_alt, size_singleton. simpl.
  assert (Hsub : list_to_set l ∖ {[x]} ⊆ list_to_set (C:=gset string) l)
    by apply subseteq_difference_l, reflexivity.
  apply subseteq_size in Hsub. lia.
Qed.

Lemma collect_loop_total root :
  is_Some (collect_loop (S (length (indexed_children m))) h m [root] [root]).
Proof.
  apply collect_loop_ends. change (length [root]) with 1%nat.
  pose proof (subseteq_size (child_ids h m ∖ list_to_set [root]) (child_ids h m)) as H1.
  assert (child_ids h m ∖ list_to_set [root] ⊆ child_ids h m) as H2
    by apply subseteq_difference_l, reflexivity.
  pose proof (size_list_to_set_le ((λ c, id (h c)) <$> indexed_children m)) as H3.
  rewrite length_fmap in H3. unfold child_ids in *. specialize (H1 H2). lia.
Qed.

Lemma closed_reaches root (ids : list string) :
  root ∈ ids →
  (∀ x, x ∈ ids → x ∈ @nil string ∨ ∀ y, child_edge h m x y → y ∈ ids) →
  ∀ x, rtc (child_edge h m) root x → x ∈ ids.
Proof.
  intros Hroot Hclosed x Hx. revert Hroot.
  induction Hx as [|a b c Hab _ IHx]; intros Ha; [done|].
  apply IHx. destruct (Hclosed a Ha) as [Hn|Hc]; [by apply elem_of_nil in Hn|].
  by apply Hc.
Qed.

Lemma collect_loop_sound root fuel queue ids r :
  loop_inv h m root queue ids →
  collect_loop fuel h m queue ids = Some r →
  NoDup r ∧ ∀ x, x ∈ r ↔ rtc (child_edge h m) root x.
Proof.
  revert queue ids. induction fuel as [|fuel IH];
    intros queue ids (Hroot & ND & Hq & Hreach & Hclosed).
  - destruct queue as [|cur rest]; [|done]. intros [= <-]. split; [done|].
    intros x. split; [apply Hreach|]. by apply closed_reaches.
  - destruct queue as [|cur rest].
    + intros [= <-]. split; [done|].
      intros x. split; [apply Hreach|]. by apply closed_reaches.
    + simpl.
      destruct (visit_fold (default [] (m !! cur)) ids rest)
        as (new & E & NDn & Hnew).
      rewrite E. apply IH. split; [|split; [|split; [|split]]].
      * apply elem_of_app. by left.
      * apply NoDup_app. split; [done|]. split; [|done].
        intros x Hx Hx'. apply Hnew in Hx'. tauto.
      * intros x. rewrite !elem_of_app. intros [Hx|Hx]; [|by right].
        left. apply Hq. by right.
      * intros x. rewrite elem_of_app. intros [Hx|Hx]; [by apply Hreach|].
        apply Hnew in Hx as (_ & c & Hc & <-).
        eapply rtc_r; [apply Hreach, Hq; left|]. by exists c.
      * intros x. rewrite elem_of_app. intros [Hx|Hx].
        -- destruct (Hclosed x Hx) as [Hin|Hc].
           ++ apply elem_of_cons in Hin as [-> | Hin].
              ** right. intros y (c & Hc & <-). rewrite elem_of_app.
                 destruct (decide (id (h c) ∈ ids)); [by left|right].
                 apply Hnew. split; [done|]. by exists c.
              ** left. apply elem_of_app. by left.
           ++ right. intros y Hy. apply elem_of_app. left. by apply Hc.
        -- left. apply elem_of_app. by right.
Qed.

Lemma loop_inv_init root : loop_inv h m root [root] [root].
Proof.
  split; [left|]. split; [apply NoDup_singleton|]. split; [done|]. split.
  - intros x ->%list_elem_of_singleton. done.
  - intros x Hx. by left.
Qed.
End traversal.

Lemma collectThreadIds_fuel_bound root s :
  collectThreadIds_fuel (collect_bound s) root s = Some (collectThreadIds root s).
Proof.
  unfold collectThreadIds.
  destruct (collect_loop_total (heap s) (childrenByThreadId s) root) as [r E].
  unfold collectThreadIds_fuel, collect_bound. by rewrite E.
Qed.

Lemma collectThreadIds_NoDup root s : NoDup (collectThreadIds root s).
Proof.
  eapply (collect_loop_sound (heap s) (childrenByThreadId s) root).
  - apply loop_inv_init.
  - apply collectThreadIds_fuel_bound.
Qed.

Lemma collectThreadIds_elem root s x :
  x ∈ collectThreadIds root s ↔ in_thread s root x.
Proof.
  eapply (collect_loop_sound (heap s) (childrenByThreadId s) root).
  - apply loop_inv_init.
  - apply collectThreadIds_fuel_bound.
Qed.

Lemma collectThreadIds_head root s :
  ∃ extra, collectThreadIds root s = root :: extra.
Proof.
  destruct (collect_loop_count _ _ _ _ _ _ (collectThreadIds_fuel_bound root s))
    as (extra & E & _).
  by exists extra.
Qed.

(** With consistent indices a reply edge is a post of the collection and
    its truthy [threadId]. *)
Lemma reply_edge_indexed s a b :
  indexed s →
  reply_edge s a b ↔
    ∃ c, c ∈ posts s ∧ truthy (threadId (heap s c)) = Some a ∧ id (heap s c) = b.
Proof.
  intros Hs. unfold reply_edge, child_edge.
  change (default [] (childrenByThreadId s !! a)) with (getReplies a s).
  rewrite indexed_getReplies by done.
  split; intros (c & Hc & E); exists c.
  - apply list_elem_of_filter in Hc. tauto.
  - split; [|tauto]. apply list_elem_of_filter. tauto.
Qed.

(** C5: [collectThreadIds] returns each id once, and exactly [rootId] and
    the ids reached from it along the edges of the reply index; a root
    without indexed children gives the list of [rootId] alone.  The
    statement holds for every store, a forest or not. *)
Theorem collectThreadIds_is_thread s rootId :
  NoDup (collectThreadIds rootId s) ∧
  (∀ x, x ∈ collectThreadIds rootId s ↔ in_thread s rootId x) ∧
  (getReplies rootId s = [] → collectThreadIds rootId s = [rootId]).
Proof.
  split; [apply collectThreadIds_NoDup|]. split; [apply collectThreadIds_elem|].
  unfold getReplies, collectThreadIds, collectThreadIds_fuel, collect_bound.
  simpl. intros ->. simpl.
  by destruct (length (indexed_children (childrenByThreadId s))).
Qed.

Lemma collectThreadIds_is_thread_witness :
  collectThreadIds "c" orphan_store = ["c"].
Proof.
  apply (collectThreadIds_is_thread orphan_store "c"). reflexivity.
Defined.

(** C6: the traversal ends in every store.  It starts from [rootId], its
    result [r] has no duplicates, the loop runs exactly once per element
    of [r], and [r] is not longer than one plus the number of entries of
    the reply index: with that much fuel or more the loop returns [r],
    with less than [length r] it is cut short. *)
Theorem collectThreadIds_terminates s rootId :
  ∃ r, collectThreadIds rootId s = r ∧
       head r = Some rootId ∧
       NoDup r ∧
       (length r ≤ collect_bound s)%nat ∧
       ∀ fuel, collectThreadIds_fuel fuel rootId s =
                 if decide (length r ≤ fuel)%nat then Some r else None.
Proof.
  exists (collectThreadIds rootId s). split; [done|].
  pose proof (collectThreadIds_fuel_bound rootId s) as Hb.
  destruct (collect_loop_count _ _ _ _ _ _ Hb) as (extra & E & Hlen & Hall).
  split; [by rewrite E|]. split; [apply collectThreadIds_NoDup|].
  rewrite E in *. simpl in *. split; [exact Hlen|].
  intros fuel. case_decide as Hf.
  - by apply Hall.
  - destruct (collectThreadIds_fuel fuel rootId s) as [r'|] eqn:Er; [|done].
    destruct (collect_loop_count _ _ _ _ _ _ Er) as (extra' & E' & Hlen' & Hall').
    specialize (Hall (fuel + S (length extra)) ltac:(lia))%nat.
    specialize (Hall' (fuel + S (length extra)) ltac:(simpl; lia))%nat.
    rewrite Hall in Hall'. injection Hall' as Heq.
    rewrite E' in Heq. injection Heq as Heq. subst extra'. simpl in *. lia.
Qed.

(** The traversal of a cyclic reply relation. *)
Example collectThreadIds_on_cycle :
  collectThreadIds "a" cycle_store = ["a"; "b"] ∧
  reply_edge cycle_store "a" "b" ∧ reply_edge cycle_store "b" "a".
Proof.
  split; [reflexivity|]. split.
  - exists 1. split; [left|reflexivity].
  - exists 0. split; [left|reflexivity].
Qed.

(** ** Deleting a thread *)

Lemma id_deleteThread_loop s h ids l :
  id (foldl (quote_step (postsById s)) h ids l) = id (h l).
Proof. by apply (quote_loop_pres (λ p, id p = id (h l))). Qed.

Lemma posts_deleteThread root s :
  posts (deleteThread root s) =
    filter (λ p, id (heap s p) ∉ collectThreadIds root s) (posts s).
Proof.
  simpl. apply list_filter_iff. intros p.
  pose proof (id_call s (DeleteThread root) p) as E. simpl in E. by rewrite E.
Qed.

Lemma replyCount_quote_loop byId h ids l :
  replyCount (foldl (quote_step byId) h ids l) = replyCount (h l).
Proof. by apply (quote_loop_pres (λ p, replyCount p = replyCount (h l))). Qed.

(** C10: when no post has the id [rootId], [deleteThread] still removes
    every post whose id is reached from [rootId] along the reply index
    and changes no [replyCount]; in [orphan_store] it removes both posts. *)
Theorem deleteThread_missing_root :
  (∀ s rootId,
     indexed s → (∀ p, p ∈ posts s → id (heap s p) ≠ rootId) →
     let s' := deleteThread rootId s in
     getPostById rootId s = None ∧
     (∀ p, p ∈ posts s' ↔ p ∈ posts s ∧ ¬ in_thread s rootId (id (heap s p))) ∧
     (∀ l, replyCount (heap s' l) = replyCount (heap s l))) ∧
  (∀ p, p ∈ posts orphan_store → id (heap orphan_store p) ≠ "gone") ∧
  posts orphan_store = [1; 0] ∧
  posts (deleteThread "gone" orphan_store) = [].
Proof.
  split; [|split; [|split; reflexivity]].
  - intros s rootId Hs Hno s'.
    assert (E : postsById s !! rootId = None).
    { destruct Hs as (-> & _). by apply build_postsById_None. }
    split; [done|]. split.
    + intros p. unfold s'. rewrite posts_deleteThread, list_elem_of_filter.
      rewrite collectThreadIds_elem. tauto.
    + intros l. simpl. rewrite E. apply replyCount_quote_loop.
  - intros p Hp. replace (posts orphan_store) with [1; 0] in Hp by reflexivity.
    rewrite !elem_of_cons, elem_of_nil in Hp.
    destruct Hp as [-> | [-> | []]]; vm_compute; discriminate.
Qed.

Lemma deleteThread_missing_root_witness :
  getPostById "gone" orphan_store = None ∧
  (∀ l, replyCount (heap (deleteThread "gone" orphan_store) l)
        = replyCount (heap orphan_store l)).
Proof.
  destruct deleteThread_missing_root as (H & Hno & _).
  destruct (H orphan_store "gone") as (E & _ & Hrc).
  - apply indexed_updatePostsById.
  - exact Hno.
  - split; [exact E | exact Hrc].
Defined.

Lemma dec_counter_iter k o :
  Nat.iter k dec_counter o =
    if decide (k = 0%nat) then o else Some (Z.max 0 (or0 o - Z.of_nat k)).
Proof.
  induction k as [|k IH]; [done|].
  change (Nat.iter (S k) dec_counter o) with (dec_counter (Nat.iter k dec_counter o)).
  rewrite IH. destruct (decide (S k = 0%nat)) as [|_]; [lia|].
  unfold dec_counter. f_equal. destruct (decide (k = 0%nat)) as [->|Ek].
  - lia.
  - unfold or0 at 1. case_decide; lia.
Qed.

Section quote_loop.
Context (s : TweetStore).

(** The loop over [threadIds] decrements [retweet] of a post once for
    every id whose post quotes it. *)
Lemma retweet_quote_loop ids (h : Heap) T :
  (∀ l, quoteId (h l) = quoteId (heap s l)) →
  retweet (foldl (quote_step (postsById s)) h ids T) =
    Nat.iter (length (filter (λ i, quote_target s i = Some T) ids))
             dec_counter (retweet (h T)).
Proof.
  revert h. induction ids as [|i ids IH]; intros h Hq; [done|].
  simpl. rewrite IH.
  - assert (E : retweet (quote_step (postsById s) h i T) =
                if decide (quote_target s i = Some T)
                then dec_counter (retweet (h T)) else retweet (h T)).
    { unfold quote_step, quote_target.
      destruct (postsById s !! i) as [p|]; simpl.
      - rewrite touch_lookup, Hq. by destruct (decide _).
      - done. }
    rewrite E, filter_cons. case_decide; [|done].
    simpl length. by rewrite Nat.iter_succ_r.
  - intros l. rewrite <- Hq. unfold quote_step.
    destruct (postsById s !! i) as [p|]; [|done].
    by apply (touch_pres (λ x, quoteId x = quoteId (h l))).
Qed.

Context (Hs : indexed s) (U : unique_ids (heap s) (posts s)).

Lemma quote_target_unique p T :
  p ∈ posts s → T ∈ posts s →
  quote_target s (id (heap s p)) = Some T ↔
    truthy (quoteId (heap s p)) = Some (id (heap s T)).
Proof.
  intros Hp HT. unfold quote_target.
  rewrite (indexed_lookup_unique s p) by done. simpl.
  destruct (truthy (quoteId (heap s p))) as [q|]; simpl; [|done].
  split.
  - intros [_ <-]%indexed_lookup_elem; done.
  - intros [= ->]. by apply indexed_lookup_unique.
Qed.

(** The ids of the traversal that quote [T] are the ids of the deleted
    posts that quote [T]. *)
Lemma deleted_quoters_count rootId T :
  T ∈ posts s →
  length (filter (λ i, quote_target s i = Some T) (collectThreadIds rootId s))
    = length (deleted_quoters rootId s T).
Proof.
  intros HT.
  rewrite <- (length_fmap (λ p, id (heap s p)) (deleted_quoters rootId s T)).
  apply Permutation_length, NoDup_Permutation.
  - apply NoDup_filter, collectThreadIds_NoDup.
  - eapply sublist_NoDup; [exact U|]. apply fmap_sublist.
    unfold deleted_quoters, deleted_posts.
    etrans; apply sublist_filter.
  - intros i. unfold deleted_quoters, deleted_posts.
    rewrite list_elem_of_filter, list_elem_of_fmap. split.
    + intros [Ht Hi]. unfold quote_target in Ht.
      destruct (postsById s !! i) as [p|] eqn:Ep; [|done].
      apply indexed_lookup_elem in Ep as [Hp <-]; [|done].
      exists p. split; [done|]. rewrite !list_elem_of_filter.
      split; [|done]. apply quote_target_unique; [done|done|].
      unfold quote_target. by rewrite (indexed_lookup_unique s p).
    + intros (p & -> & Hp). rewrite !list_elem_of_filter in Hp.
      destruct Hp as (Hq & Hd & Hp). split; [|done].
      by apply quote_target_unique.
Qed.
End quote_loop.

Lemma replyCount_deleteThread rootId s T :
  replyCount (heap (deleteThread rootId s) T) =
    if decide (root_parent rootId s = Some T)
    then dec_counter (replyCount (heap s T)) else replyCount (heap s T).
Proof.
  simpl. rewrite replyCount_quote_loop. unfold root_parent.
  destruct (postsById s !! rootId) as [r|]; simpl.
  - rewrite touch_lookup. by destruct (decide _).
  - done.
Qed.

Lemma retweet_deleteThread rootId s T :
  retweet (heap (deleteThread rootId s) T) =
    Nat.iter (length (filter (λ i, quote_target s i = Some T)
                             (collectThreadIds rootId s)))
             dec_counter (retweet (heap s T)).
Proof.
  simpl. rewrite retweet_quote_loop.
  - f_equal. destruct (postsById s !! rootId) as [r|]; [|done].
    by apply (touch_pres (λ x, retweet x = retweet (heap s T))).
  - intros l. destruct (postsById s !! rootId) as [r|]; [|done].
    by apply (touch_pres (λ x, quoteId x = quoteId (heap s l))).
Qed.

Lemma indexed_drifted_store : indexed drifted_store.
Proof. apply indexed_run, indexed_run, indexed_updatePostsById. Qed.

Lemma drifted_store_edges a b :
  reply_edge drifted_store a b → a = "p" ∧ b = "x".
Proof.
  intros H. apply reply_edge_indexed in H as (c & Hc & Ht & Hi);
    [|apply indexed_drifted_store].
  replace (posts drifted_store) with [3; 1; 0] in Hc
    by (vm_compute; reflexivity).
  rewrite !elem_of_cons, elem_of_nil in Hc.
  destruct Hc as [-> | [-> | [-> | []]]]; vm_compute in Ht; vm_compute in Hi;
    try discriminate.
  split; congruence.
Qed.

(** C4, as stated: in [drifted_store], a forest with unique ids, the post
    "x" replies to "p", whose [replyCount] is 0; [deleteThread "x"] leaves
    "p" in the store with the count 0, which is not one less than before. *)
Lemma deleteThread_exact_fails_at_zero :
  ∃ s rootId,
    indexed s ∧ unique_ids (heap s) (posts s) ∧ reply_forest s ∧
    ¬ deleteThread_exact rootId s.
Proof.
  exists drifted_store, "x". split; [apply indexed_drifted_store|]. split; [|split].
  - decide_by_compute.
  - intros x Hx. inversion Hx as [? ? H1 | ? y ? H1 H2]; subst.
    + apply drifted_store_edges in H1 as [-> ?]. discriminate.
    + apply drifted_store_edges in H1 as [-> ->].
      inversion H2 as [? ? H3 | ? ? ? H3 _]; subst;
        apply drifted_store_edges in H3 as [? _]; discriminate.
  - intros H. destruct (H 0) as (H1 & _); [decide_by_compute|].
    assert (E : replyCount (heap drifted_store 0) = Some 0%Z)
      by (vm_compute; reflexivity).
    assert (E' : replyCount (heap (deleteThread "x" drifted_store) 0) = Some 0%Z)
      by (vm_compute; reflexivity).
    rewrite E, E' in H1. specialize (H1 ltac:(vm_compute; reflexivity)).
    vm_compute in H1. discriminate.
Qed.

(** C4, amended: in a store with consistent indices and unique ids,
    [deleteThread] removes the posts of the thread and, for every post
    [T] of the collection (surviving or not), sets [replyCount] to
    [max 0 (replyCount - 1)] when the root post replies to [T] and leaves
    it alone otherwise, and sets [retweet] to [max 0 (retweet - k)] when
    [k > 0] deleted posts quote [T] and leaves it alone when none does;
    an absent counter is read as 0. *)
Theorem deleteThread_counters rootId s :
  indexed s → unique_ids (heap s) (posts s) →
  let s' := deleteThread rootId s in
  (∀ p, p ∈ posts s' ↔ p ∈ posts s ∧ p ∉ deleted_posts rootId s) ∧
  ∀ T, T ∈ posts s →
    let k := length (deleted_quoters rootId s T) in
    (root_parent rootId s = Some T →
       replyCount (heap s' T) = Some (Z.max 0 (or0 (replyCount (heap s T)) - 1))) ∧
    (root_parent rootId s ≠ Some T →
       replyCount (heap s' T) = replyCount (heap s T)) ∧
    (k ≠ 0%nat →
       retweet (heap s' T) = Some (Z.max 0 (or0 (retweet (heap s T)) - Z.of_nat k))) ∧
    (k = 0%nat → retweet (heap s' T) = retweet (heap s T)).
Proof.
  intros Hs U s'. split.
  - intros p. unfold s', deleted_posts.
    rewrite posts_deleteThread, !list_elem_of_filter. tauto.
  - intros T HT k. unfold s'.
    rewrite replyCount_deleteThread, retweet_deleteThread.
    rewrite (deleted_quoters_count s Hs U rootId T HT), dec_counter_iter.
    fold k. repeat split; intros H; by destruct (decide _).
Qed.

(** In [quoting_store] the post "q" quotes "t": deleting the thread of
    "q" takes the one quote and the one reply off "t". *)
Lemma deleteThread_counters_witness :
  let s' := deleteThread "q" quoting_store in
  posts s' = [0] ∧
  replyCount (heap s' 0) = Some 0%Z ∧ retweet (heap s' 0) = Some 0%Z.
Proof.
  intros s'. split; [reflexivity|].
  destruct (deleteThread_counters "q" quoting_store) as (_ & H).
  - apply indexed_run, indexed_updatePostsById.
  - decide_by_compute.
  - destruct (H 0) as (H1 & _ & H2 & _); [decide_by_compute|].
    split.
    + unfold s'. rewrite H1 by (vm_compute; reflexivity). vm_compute. reflexivity.
    + unfold s'. rewrite H2 by (vm_compute; discriminate). vm_compute. reflexivity.
Defined.

(** ** Lookups and counters after a mutation *)

Lemma links_pres s c l :
  (∀ i u t, c ≠ UpdatePost i u t) →
  threadId (heap (call s c) l) = threadId (heap s l) ∧
  quoteId (heap (call s c) l) = quoteId (heap s l).
Proof.
  intros Hc.
  apply (call_pres (λ p, threadId p = threadId (heap s l) ∧
                         quoteId p = quoteId (heap s l))); try done.
  intros i u t p E. by destruct (Hc i u t).
Qed.

Lemma lookup_after s s' j :
  indexed s' → (∀ l, id (heap s' l) = id (heap s l)) →
  getPostById j s' = last (filter (λ p, id (heap s p) = j) (posts s')).
Proof.
  intros Hs' E. unfold getPostById. rewrite indexed_lookup by done.
  f_equal. apply list_filter_iff. intros p. by rewrite E.
Qed.

Lemma replies_after s s' t :
  indexed s' → (∀ l, threadId (heap s' l) = threadId (heap s l)) →
  getReplies t s' = filter (λ p, truthy (threadId (heap s p)) = Some t) (posts s').
Proof.
  intros Hs' E. rewrite indexed_getReplies by done.
  apply list_filter_iff. intros p. by rewrite E.
Qed.

Lemma quotes_after s s' q :
  indexed s' → (∀ l, quoteId (heap s' l) = quoteId (heap s l)) →
  getQuotePosts q s' = filter (λ p, truthy (quoteId (heap s p)) = Some q) (posts s').
Proof.
  intros Hs' E. rewrite indexed_getQuotePosts by done.
  apply list_filter_iff. intros p. by rewrite E.
Qed.

Lemma getPostById_addPost s post t1 t2 j :
  indexed s →
  getPostById j (addPost post t1 t2 s) =
    if decide (id (heap s post) = j)
    then Some (default post (getPostById j s)) else getPostById j s.
Proof.
  intros Hs.
  rewrite (lookup_after s) by (apply indexed_updatePostsById || apply id_addPost).
  change (posts (addPost post t1 t2 s)) with (post :: posts s).
  unfold getPostById. rewrite (indexed_lookup s) by done.
  rewrite filter_cons. case_decide; [|done].
  rewrite last_cons. by destruct (last _).
Qed.

(** X1: a post inserted under an id that no post of the store has is
    what [getPostById] returns for that id afterwards, and the lookup of
    every other id is as before. *)
Theorem addPost_then_getPostById s post t1 t2 :
  indexed s →
  (∀ p, p ∈ posts s → id (heap s p) ≠ id (heap s post)) →
  getPostById (id (heap s post)) (addPost post t1 t2 s) = Some post ∧
  ∀ j, j ≠ id (heap s post) →
       getPostById j (addPost post t1 t2 s) = getPostById j s.
Proof.
  intros Hs Hfresh. split.
  - rewrite getPostById_addPost by done. rewrite decide_True by done.
    assert (E : getPostById (id (heap s post)) s = None).
    { unfold getPostById. destruct Hs as (-> & _). by apply build_postsById_None. }
    by rewrite E.
  - intros j Hj. rewrite getPostById_addPost by done. by rewrite decide_False.
Qed.

Lemma addPost_then_getPostById_witness :
  getPostById "x" (addPost 3 40 40 family_store) = Some 3 ∧
  getPostById "r" (addPost 3 40 40 family_store) = getPostById "r" family_store.
Proof.
  destruct (addPost_then_getPostById family_store 3 40 40) as [H1 H2].
  - apply indexed_run, indexed_updatePostsById.
  - intros p Hp.
    replace (posts family_store) with [2; 1; 0] in Hp by (vm_compute; reflexivity).
    rewrite !elem_of_cons, elem_of_nil in Hp.
    destruct Hp as [-> | [-> | [-> | []]]]; vm_compute; discriminate.
  - split; [exact H1|]. apply H2. vm_compute. discriminate.
Defined.

(** X2: [addPost] puts the new post in front of the replies of the post it
    replies to and in front of the quotes of the post it quotes; the
    replies and quotes of every other id are as before. *)
Theorem addPost_adjacency s post t1 t2 :
  indexed s →
  (∀ t, getReplies t (addPost post t1 t2 s) =
        if decide (truthy (threadId (heap s post)) = Some t)
        then post :: getReplies t s else getReplies t s) ∧
  (∀ q, getQuotePosts q (addPost post t1 t2 s) =
        if decide (truthy (quoteId (heap s post)) = Some q)
        then post :: getQuotePosts q s else getQuotePosts q s).
Proof.
  intros Hs.
  assert (L : ∀ l, threadId (heap (addPost post t1 t2 s) l) = threadId (heap s l) ∧
                   quoteId (heap (addPost post t1 t2 s) l) = quoteId (heap s l)).
  { intros l. by apply (links_pres s (AddPost post t1 t2)). }
  split.
  - intros t. rewrite (replies_after s) by (apply indexed_updatePostsById || apply L).
    change (posts (addPost post t1 t2 s)) with (post :: posts s).
    rewrite filter_cons, (indexed_getReplies s) by done. by case_decide.
  - intros q. rewrite (quotes_after s) by (apply indexed_updatePostsById || apply L).
    change (posts (addPost post t1 t2 s)) with (post :: posts s).
    rewrite filter_cons, (indexed_getQuotePosts s) by done. by case_decide.
Qed.

Lemma addPost_adjacency_witness :
  getReplies "p" (newTweetStore family [0; 1]) = [] ∧
  getReplies "p" (addPost 2 50 50 (newTweetStore family [0; 1])) = [2].
Proof.
  destruct (addPost_adjacency (newTweetStore family [0; 1]) 2 50 50) as [H _].
  - apply indexed_updatePostsById.
  - split; [vm_compute; reflexivity|]. rewrite H. vm_compute. reflexivity.
Defined.

(** X3: [addPost] adds exactly 1 to [replyCount] of the post that the new
    post replies to and to [retweet] of the post it quotes (an absent
    counter counts as 0), stamps them with the clock readings, the later
    one when both are the same post, and changes no other object. *)
Theorem addPost_counters s post t1 t2 l :
  let s' := addPost post t1 t2 s in
  replyCount (heap s' l) =
    (if decide (post_parent post s = Some l)
     then Some (or0 (replyCount (heap s l)) + 1)%Z else replyCount (heap s l)) ∧
  retweet (heap s' l) =
    (if decide (post_target post s = Some l)
     then Some (or0 (retweet (heap s l)) + 1)%Z else retweet (heap s l)) ∧
  updated (heap s' l) =
    (if decide (post_target post s = Some l) then t2
     else if decide (post_parent post s = Some l) then t1
     else updated (heap s l)) ∧
  (post_parent post s ≠ Some l → post_target post s ≠ Some l →
   heap s' l = heap s l).
Proof.
  intros s'. unfold s', post_parent, post_target. simpl.
  assert (Eq : quoteId (touch (postsById s) (threadId (heap s post))
                          (inc_replyCount t1) (heap s) post)
               = quoteId (heap s post))
    by (by apply (touch_pres (λ p, quoteId p = quoteId (heap s post)))).
  rewrite Eq, !touch_lookup.
  destruct (decide (truthy (quoteId (heap s post)) ≫= _ = Some l));
    destruct (decide (truthy (threadId (heap s post)) ≫= _ = Some l));
    repeat split; try done; intros; congruence.
Qed.

(** X4: after [deletePost] no post of the collection has the id, so
    [getPostById] returns nothing for it; every post with another id
    stays, in the same order, and the lookup of every other id is as
    before. *)
Theorem deletePost_then_getPostById s i :
  indexed s →
  let s' := deletePost i s in
  posts s' = filter (λ p, id (heap s p) ≠ i) (posts s) ∧
  getPostById i s' = None ∧
  ∀ j, j ≠ i → getPostById j s' = getPostById j s.
Proof.
  intros Hs s'.
  assert (Hid : ∀ l, id (heap s' l) = id (heap s l))
    by (intros l; apply (id_call s (DeletePost i))).
  assert (Ep : posts s' = filter (λ p, id (heap s p) ≠ i) (posts s)).
  { simpl. apply list_filter_iff. intros p.
    pose proof (Hid p) as E. simpl in E. by rewrite E. }
  split; [done|]. split.
  - rewrite (lookup_after s) by (apply indexed_updatePostsById || done).
    rewrite Ep, list_filter_filter. apply last_None. clear Ep.
    induction (posts s) as [|p ps IH]; [done|].
    rewrite filter_cons_False by tauto. exact IH.
  - intros j Hj. rewrite (lookup_after s) by (apply indexed_updatePostsById || done).
    unfold getPostById. rewrite (indexed_lookup s) by done.
    rewrite Ep, list_filter_filter. f_equal.
    apply list_filter_iff. intros p. split; [tauto|]. intros <-. done.
Qed.

Lemma deletePost_then_getPostById_witness :
  getPostById "q" quoting_store = Some 1 ∧
  getPostById "q" (deletePost "q" quoting_store) = None ∧
  posts (deletePost "q" quoting_store) = [0].
Proof.
  destruct (deletePost_then_getPostById quoting_store "q") as (H1 & H2 & _).
  - apply indexed_run, indexed_updatePostsById.
  - split; [vm_compute; reflexivity|]. split; [exact H2|].
    rewrite H1. vm_compute. reflexivity.
Defined.

(** X5: [deletePost] takes 1 off [replyCount] of the post that the deleted
    post replies to and off [retweet] of the post it quotes, floored at 0
    and with an absent counter read as 0, and changes no other object;
    the [replyCount] of every object is what [deleteThread] of the same
    id leaves. *)
Theorem deletePost_counters s i l :
  let s' := deletePost i s in
  replyCount (heap s' l) =
    (if decide (root_parent i s = Some l)
     then Some (Z.max 0 (or0 (replyCount (heap s l)) - 1))
     else replyCount (heap s l)) ∧
  retweet (heap s' l) =
    (if decide (quote_target s i = Some l)
     then Some (Z.max 0 (or0 (retweet (heap s l)) - 1))
     else retweet (heap s l)) ∧
  (root_parent i s ≠ Some l → quote_target s i ≠ Some l → heap s' l = heap s l) ∧
  replyCount (heap s' l) = replyCount (heap (deleteThread i s) l).
Proof.
  intros s'. unfold s'. rewrite replyCount_deleteThread.
  unfold root_parent, quote_target, dec_counter. simpl.
  destruct (postsById s !! i) as [p|]; simpl; [|done].
  assert (Eq : quoteId (touch (postsById s) (threadId (heap s p))
                          dec_replyCount (heap s) p)
               = quoteId (heap s p))
    by (by apply (touch_pres (λ x, quoteId x = quoteId (heap s p)))).
  rewrite Eq, !touch_lookup.
  destruct (decide (truthy (quoteId (heap s p)) ≫= _ = Some l));
    destruct (decide (truthy (threadId (heap s p)) ≫= _ = Some l));
    repeat split; try done; intros; congruence.
Qed.

Lemma addPost_counters_witness :
  replyCount (heap family_store 0) = Some 1%Z ∧
  heap (addPost 3 40 40 family_store) 0 = heap family_store 0.
Proof.
  split; [vm_compute; reflexivity|].
  apply (addPost_counters family_store 3 40 40 0); vm_compute; discriminate.
Defined.

Lemma deletePost_counters_witness :
  heap (deletePost "q" quoting_store) 1 = heap quoting_store 1.
Proof.
  apply (deletePost_counters quoting_store "q" 1); vm_compute; discriminate.
Defined.

(** ** Deleting a thread: what is left *)

Lemma id_deletePost i s l : id (heap (deletePost i s) l) = id (heap s l).
Proof. apply (id_call s (DeletePost i)). Qed.

Lemma id_deleteThread root s l : id (heap (deleteThread root s) l) = id (heap s l).
Proof. apply (id_call s (DeleteThread root)). Qed.

Lemma posts_deletePost i s :
  posts (deletePost i s) = filter (λ p, id (heap s p) ≠ i) (posts s).
Proof.
  simpl. apply list_filter_iff. intros p.
  pose proof (id_call s (DeletePost i) p) as E. simpl in E. by rewrite E.
Qed.

Lemma filter_all {A} (P : A → Prop) `{!∀ x, Decision (P x)} (l : list A) :
  (∀ x, x ∈ l → P x) → filter P l = l.
Proof.
  induction l as [|x l IH]; intros Hall; [done|].
  rewrite filter_cons_True by (apply Hall; left).
  f_equal. apply IH. intros y Hy. apply Hall. by right.
Qed.

Lemma filter_none {A} (P : A → Prop) `{!∀ x, Decision (P x)} (l : list A) :
  (∀ x, x ∈ l → ¬ P x) → filter P l = [].
Proof.
  induction l as [|x l IH]; intros Hall; [done|].
  rewrite filter_cons_False by (apply Hall; left).
  apply IH. intros y Hy. apply Hall. by right.
Qed.

Lemma deletePost_absent s i :
  indexed s → (∀ p, p ∈ posts s → id (heap s p) ≠ i) → deletePost i s = s.
Proof.
  intros Hs Hi.
  assert (E : postsById s !! i = None).
  { destruct Hs as (-> & _). by apply build_postsById_None. }
  unfold deletePost. rewrite E, filter_all by done.
  rewrite <- (updatePostsById_indexed s Hs) at 4. by destruct s.
Qed.

Lemma collectThreadIds_leaf root s :
  getReplies root s = [] → collectThreadIds root s = [root].
Proof.
  unfold getReplies, collectThreadIds, collectThreadIds_fuel, collect_bound.
  simpl. intros ->. simpl.
  by destruct (length (indexed_children (childrenByThreadId s))).
Qed.

Lemma collectThreadIds_root root s : root ∈ collectThreadIds root s.
Proof. apply collectThreadIds_elem. unfold in_thread. done. Qed.

(** An id of the traversal other than the root is the id of a post of the
    collection that replies to an id of the traversal. *)
Lemma collectThreadIds_child root s x :
  indexed s → x ∈ collectThreadIds root s →
  x = root ∨
  ∃ c a, c ∈ posts s ∧ id (heap s c) = x ∧
         truthy (threadId (heap s c)) = Some a ∧ a ∈ collectThreadIds root s.
Proof.
  intros Hs Hx. apply collectThreadIds_elem in Hx. unfold in_thread in Hx.
  apply rtc_inv_r in Hx as [-> | (a & Ha & He)]; [by left|right].
  apply reply_edge_indexed in He as (c & Hc & Ht & Hi); [|done].
  exists c, a. repeat split; try done. by apply collectThreadIds_elem.
Qed.

(** A post that replies to an id of the traversal has its id in the
    traversal. *)
Lemma collectThreadIds_closed root s c a :
  indexed s → c ∈ posts s → truthy (threadId (heap s c)) = Some a →
  a ∈ collectThreadIds root s → id (heap s c) ∈ collectThreadIds root s.
Proof.
  intros Hs Hc Ht Ha. apply collectThreadIds_elem.
  apply collectThreadIds_elem in Ha. unfold in_thread in *.
  eapply rtc_r; [exact Ha|]. apply reply_edge_indexed; [done|]. by exists c.
Qed.

Lemma links_deleteThread root s l :
  threadId (heap (deleteThread root s) l) = threadId (heap s l) ∧
  quoteId (heap (deleteThread root s) l) = quoteId (heap s l).
Proof. by apply (links_pres s (DeleteThread root)). Qed.

Lemma deleteThread_orphan_free root s p t :
  indexed s → p ∈ posts (deleteThread root s) →
  truthy (threadId (heap s p)) = Some t → t ∉ collectThreadIds root s.
Proof.
  intros Hs Hp Ht Hin. rewrite posts_deleteThread in Hp.
  apply list_elem_of_filter in Hp as [Hp1 Hp2]. apply Hp1.
  by eapply collectThreadIds_closed.
Qed.

Lemma deleteThread_removed root s d :
  indexed s → d ∈ collectThreadIds root s →
  getPostById d (deleteThread root s) = None ∧
  getReplies d (deleteThread root s) = [].
Proof.
  intros Hs Hd. split.
  - rewrite (lookup_after s)
      by (apply indexed_updatePostsById || (intros l; apply (id_call s (DeleteThread root)))).
    apply last_None, filter_none. intros p Hp E. rewrite posts_deleteThread in Hp.
    apply list_elem_of_filter in Hp as [Hp _]. apply Hp. by rewrite E.
  - rewrite (replies_after s)
      by (apply indexed_updatePostsById || (intros l; apply links_deleteThread)).
    apply filter_none. intros p Hp Ht.
    by apply (deleteThread_orphan_free root s p d).
Qed.

(** X6: [deleteThread] leaves no orphan behind.  With consistent indices,
    no surviving post replies to an id of the deleted thread, and every
    such id has no post and no replies afterwards. *)
Theorem deleteThread_leaves_no_orphan root s :
  indexed s →
  let s' := deleteThread root s in
  (∀ p t, p ∈ posts s' → truthy (threadId (heap s' p)) = Some t →
          t ∉ collectThreadIds root s) ∧
  (∀ d, d ∈ collectThreadIds root s →
        getPostById d s' = None ∧ getReplies d s' = []).
Proof.
  intros Hs s'. split.
  - intros p t Hp Ht. unfold s' in Ht.
    destruct (links_deleteThread root s p) as [E _]. rewrite E in Ht.
    by apply (deleteThread_orphan_free root s p t).
  - intros d Hd. by apply deleteThread_removed.
Qed.

Lemma deleteThread_leaves_no_orphan_witness :
  getPostById "c" (deleteThread "b" orphan_store) = None ∧
  getReplies "c" (deleteThread "b" orphan_store) = [].
Proof.
  destruct (deleteThread_leaves_no_orphan "b" orphan_store) as [_ H].
  - apply indexed_updatePostsById.
  - apply H. decide_by_compute.
Defined.

Lemma deleteThread_leaf root s :
  getReplies root s = [] → deleteThread root s = deletePost root s.
Proof.
  intros Hleaf. unfold deleteThread, deletePost.
  rewrite (collectThreadIds_leaf root s Hleaf). simpl. unfold quote_step.
  f_equal. f_equal.
  apply list_filter_iff. intros p.
  rewrite list_elem_of_singleton. done.
Qed.

(** X7: on a root without replies [deleteThread] does what [deletePost]
    does: the two calls give the same store. *)
Theorem deleteThread_without_replies_is_deletePost root s :
  getReplies root s = [] → deleteThread root s = deletePost root s.
Proof. apply deleteThread_leaf. Qed.

Lemma deleteThread_without_replies_is_deletePost_witness :
  deleteThread "q" quoting_store = deletePost "q" quoting_store.
Proof.
  apply (deleteThread_without_replies_is_deletePost "q" quoting_store).
  vm_compute. reflexivity.
Defined.

Lemma deletePost_twice i s : deletePost i (deletePost i s) = deletePost i s.
Proof.
  apply deletePost_absent; [apply indexed_updatePostsById|].
  intros p Hp. rewrite posts_deletePost in Hp.
  apply list_elem_of_filter in Hp as [Hp _].
  by rewrite id_deletePost.
Qed.

Lemma deleteThread_twice root s :
  indexed s → deleteThread root (deleteThread root s) = deleteThread root s.
Proof.
  intros Hs.
  destruct (deleteThread_removed root s root Hs (collectThreadIds_root root s))
    as [Hnone Hleaf].
  rewrite (deleteThread_leaf root _ Hleaf).
  apply deletePost_absent; [apply indexed_updatePostsById|].
  intros p Hp E. rewrite posts_deleteThread in Hp.
  apply list_elem_of_filter in Hp as [Hp _]. apply Hp.
  rewrite id_deleteThread in E. rewrite E.
  apply collectThreadIds_root.
Qed.

(** X8: deleting is idempotent.  A second [deletePost] of the same id
    changes nothing, not even a counter, and with consistent indices
    neither does a second [deleteThread] of the same root. *)
Theorem delete_is_idempotent s i :
  deletePost i (deletePost i s) = deletePost i s ∧
  (indexed s → deleteThread i (deleteThread i s) = deleteThread i s).
Proof. split; [apply deletePost_twice | apply deleteThread_twice]. Qed.

Lemma delete_is_idempotent_witness :
  deleteThread "b" (deleteThread "b" orphan_store) = deleteThread "b" orphan_store.
Proof.
  apply (delete_is_idempotent orphan_store "b"). apply indexed_updatePostsById.
Defined.

(** ** Counter formulas *)

Lemma quoteId_touch byId key f (h : Heap) l :
  (∀ p, quoteId (f p) = quoteId p) → quoteId (touch byId key f h l) = quoteId (h l).
Proof. intros Hf. apply (touch_pres (λ p, quoteId p = quoteId (h l))); [|done]. intros p <-. apply Hf. Qed.

Lemma replyCount_addPost post t1 t2 s l :
  replyCount (heap (addPost post t1 t2 s) l) =
    if decide (post_parent post s = Some l)
    then Some (or0 (replyCount (heap s l)) + 1)%Z else replyCount (heap s l).
Proof.
  unfold post_parent. simpl. rewrite !touch_lookup.
  destruct (decide (truthy (quoteId _) ≫= _ = Some l));
    by destruct (decide (truthy (threadId (heap s post)) ≫= _ = Some l)).
Qed.

Lemma retweet_addPost post t1 t2 s l :
  retweet (heap (addPost post t1 t2 s) l) =
    if decide (post_target post s = Some l)
    then Some (or0 (retweet (heap s l)) + 1)%Z else retweet (heap s l).
Proof.
  unfold post_target. simpl. rewrite quoteId_touch by done. rewrite !touch_lookup.
  destruct (decide (truthy (quoteId (heap s post)) ≫= _ = Some l));
    by destruct (decide (truthy (threadId (heap s post)) ≫= _ = Some l)).
Qed.

Lemma replyCount_deletePost i s l :
  replyCount (heap (deletePost i s) l) =
    if decide (root_parent i s = Some l)
    then dec_counter (replyCount (heap s l)) else replyCount (heap s l).
Proof.
  unfold root_parent. simpl.
  destruct (postsById s !! i) as [p|]; simpl; [|done]. rewrite !touch_lookup.
  destruct (decide (truthy (quoteId _) ≫= _ = Some l));
    by destruct (decide (truthy (threadId (heap s p)) ≫= _ = Some l)).
Qed.

Lemma retweet_deletePost i s l :
  retweet (heap (deletePost i s) l) =
    if decide (quote_target s i = Some l)
    then dec_counter (retweet (heap s l)) else retweet (heap s l).
Proof.
  unfold quote_target. simpl.
  destruct (postsById s !! i) as [p|]; simpl; [|done].
  rewrite quoteId_touch by done. rewrite !touch_lookup.
  destruct (decide (truthy (quoteId (heap s p)) ≫= _ = Some l));
    by destruct (decide (truthy (threadId (heap s p)) ≫= _ = Some l)).
Qed.

Lemma or0_Some z : or0 (Some z) = z.
Proof. unfold or0. case_decide; lia. Qed.

Lemma build_adj_ext key key' ps :
  (∀ p, key p = key' p) → build_adj key ps = build_adj key' ps.
Proof.
  intros E. apply map_eq. intros k. rewrite !build_adj_lookup.
  assert (F : filter (λ p, truthy (key p) = Some k) ps
              = filter (λ p, truthy (key' p) = Some k) ps)
    by (apply list_filter_iff; intros p; by rewrite E).
  by rewrite F.
Qed.

(** A store whose collection is that of [s] and whose objects have the
    ids and links of those of [s] has the indices of [s]. *)
Lemma same_indices s s' :
  indexed s → indexed s' → posts s' = posts s →
  (∀ l, id (heap s' l) = id (heap s l)) →
  (∀ l, threadId (heap s' l) = threadId (heap s l)) →
  (∀ l, quoteId (heap s' l) = quoteId (heap s l)) →
  postsById s' = postsById s ∧
  childrenByThreadId s' = childrenByThreadId s ∧
  quotesById s' = quotesById s.
Proof.
  intros (E1 & E2 & E3) (E1' & E2' & E3') Ep Hi Ht Hq.
  rewrite E1, E2, E3, E1', E2', E3', Ep. split; [|split].
  - by apply build_postsById_ext.
  - by apply build_adj_ext.
  - by apply build_adj_ext.
Qed.

Lemma getPostById_fresh s post t1 t2 :
  indexed s → (∀ p, p ∈ posts s → id (heap s p) ≠ id (heap s post)) →
  ∀ j, getPostById j (addPost post t1 t2 s) =
       if decide (id (heap s post) = j) then Some post else getPostById j s.
Proof.
  intros Hs Hfresh j. rewrite getPostById_addPost by done.
  case_decide as E; [|done]. subst j.
  assert (E : getPostById (id (heap s post)) s = None).
  { unfold getPostById. destruct Hs as (-> & _). by apply build_postsById_None. }
  by rewrite E.
Qed.

Lemma links_addPost post t1 t2 s l :
  threadId (heap (addPost post t1 t2 s) l) = threadId (heap s l) ∧
  quoteId (heap (addPost post t1 t2 s) l) = quoteId (heap s l).
Proof. by apply (links_pres s (AddPost post t1 t2)). Qed.

Lemma links_deletePost i s l :
  threadId (heap (deletePost i s) l) = threadId (heap s l) ∧
  quoteId (heap (deletePost i s) l) = quoteId (heap s l).
Proof. by apply (links_pres s (DeletePost i)). Qed.

(** The links of a post inserted under a new id, looked up after the
    insertion, resolve as before for every object but the post itself. *)
Lemma resolve_fresh s post t1 t2 key l :
  indexed s → (∀ p, p ∈ posts s → id (heap s p) ≠ id (heap s post)) →
  l ≠ post →
  (truthy key ≫= (λ k, postsById (addPost post t1 t2 s) !! k) = Some l ↔
   truthy key ≫= (λ k, postsById s !! k) = Some l).
Proof.
  intros Hs Hfresh Hl. destruct (truthy key) as [k|]; [|done].
  change (postsById (addPost post t1 t2 s) !! k = Some l ↔ postsById s !! k = Some l).
  pose proof (getPostById_fresh s post t1 t2 Hs Hfresh k) as E.
  unfold getPostById in E. rewrite E. case_decide as Ek; [|done].
  subst k. split; [congruence|]. intros Hk.
  assert (E' : postsById s !! id (heap s post) = None)
    by (destruct Hs as (-> & _); by apply build_postsById_None).
  congruence.
Qed.

(** X9: inserting a post under a new id and deleting it again gives back
    the collection and the three indices; every other object whose
    counters were absent or at least 0 has the same counter values as
    before, an absent counter being read as 0. *)
Theorem addPost_then_deletePost s post t1 t2 :
  indexed s →
  (∀ p, p ∈ posts s → id (heap s p) ≠ id (heap s post)) →
  let s' := deletePost (id (heap s post)) (addPost post t1 t2 s) in
  posts s' = posts s ∧
  postsById s' = postsById s ∧
  childrenByThreadId s' = childrenByThreadId s ∧
  quotesById s' = quotesById s ∧
  ∀ l, l ≠ post → counters_ok (heap s l) →
       or0 (replyCount (heap s' l)) = or0 (replyCount (heap s l)) ∧
       or0 (retweet (heap s' l)) = or0 (retweet (heap s l)).
Proof.
  intros Hs Hfresh s'.
  assert (Hs1 : indexed (addPost post t1 t2 s)) by apply indexed_updatePostsById.
  assert (Ep : posts s' = posts s).
  { unfold s'. rewrite posts_deletePost.
    change (posts (addPost post t1 t2 s)) with (post :: posts s).
    rewrite filter_cons_False by (rewrite id_addPost; tauto).
    apply filter_all. intros p Hp. rewrite id_addPost. by apply Hfresh. }
  split; [done|].
  assert (Hids : postsById s' = postsById s ∧
                 childrenByThreadId s' = childrenByThreadId s ∧
                 quotesById s' = quotesById s).
  { apply same_indices; [done | apply indexed_updatePostsById | done | | |].
    - intros l. unfold s'. by rewrite id_deletePost, id_addPost.
    - intros l. unfold s'.
      destruct (links_deletePost (id (heap s post)) (addPost post t1 t2 s) l) as [-> _].
      by destruct (links_addPost post t1 t2 s l) as [-> _].
    - intros l. unfold s'.
      destruct (links_deletePost (id (heap s post)) (addPost post t1 t2 s) l) as [_ ->].
      by destruct (links_addPost post t1 t2 s l) as [_ ->]. }
  destruct Hids as (? & ? & ?). do 3 (split; [done|]).
  intros l Hl [Hrc Hrt].
  assert (Epost : postsById (addPost post t1 t2 s) !! id (heap s post) = Some post).
  { pose proof (getPostById_fresh s post t1 t2 Hs Hfresh (id (heap s post))) as E.
    unfold getPostById in E. by rewrite decide_True in E. }
  assert (Erc : root_parent (id (heap s post)) (addPost post t1 t2 s) = Some l ↔
                post_parent post s = Some l).
  { unfold root_parent, post_parent. rewrite Epost.
    change (Some post ≫= ?f) with (f post). cbv beta.
    destruct (links_addPost post t1 t2 s post) as [-> _].
    by apply resolve_fresh. }
  assert (Ert : quote_target (addPost post t1 t2 s) (id (heap s post)) = Some l ↔
                post_target post s = Some l).
  { unfold quote_target, post_target. rewrite Epost.
    change (Some post ≫= ?f) with (f post). cbv beta.
    destruct (links_addPost post t1 t2 s post) as [_ ->].
    by apply resolve_fresh. }
  unfold s'. rewrite replyCount_deletePost, retweet_deletePost.
  rewrite replyCount_addPost, retweet_addPost. split.
  - destruct (decide (post_parent post s = Some l)) as [E|E].
    + rewrite decide_True by (by apply Erc). unfold dec_counter.
      rewrite !or0_Some. unfold nonneg, or0 in *.
      destruct (replyCount (heap s l)); [case_decide|]; lia.
    + rewrite decide_False; [done|]. intros E'. by apply E, Erc.
  - destruct (decide (post_target post s = Some l)) as [E|E].
    + rewrite decide_True by (by apply Ert). unfold dec_counter.
      rewrite !or0_Some. unfold nonneg, or0 in *.
      destruct (retweet (heap s l)); [case_decide|]; lia.
    + rewrite decide_False; [done|]. intros E'. by apply E, Ert.
Qed.

(** The quote scenario: "q" is inserted and deleted again, and "t" is back
    at no replies and no quotes. *)
Lemma addPost_then_deletePost_witness :
  let s := newTweetStore quoting [0] in
  let s' := deletePost "q" (addPost 1 20 21 s) in
  posts s' = [0] ∧ or0 (replyCount (heap s' 0)) = 0%Z ∧ or0 (retweet (heap s' 0)) = 0%Z.
Proof.
  intros s s'.
  destruct (addPost_then_deletePost s 1 20 21) as (Ep & _ & _ & _ & Hc).
  - apply indexed_updatePostsById.
  - intros p Hp. replace (posts s) with [0] in Hp by (vm_compute; reflexivity).
    apply list_elem_of_singleton in Hp as ->. vm_compute. discriminate.
  - split; [exact Ep|]. apply (Hc 0); [discriminate|]. vm_compute. by split.
Defined.

(** ** Updates and the indices *)

(** X10: [updatePost] of an existing post stamps it with the current
    time, whatever [updates] says about [updated], keeps its id and the
    lookup of every id, and the reply index follows the new [threadId]:
    the post is listed under its new truthy [threadId] and nowhere else,
    and the listing of every other post is as before. *)
Theorem updatePost_moves_in_index s i u now r :
  indexed s → getPostById i s = Some r →
  let s' := updatePost i u now s in
  updated (heap s' r) = now ∧ id (heap s' r) = i ∧
  (∀ j, getPostById j s' = getPostById j s) ∧
  (∀ t, r ∈ getReplies t s' ↔
        truthy (default (threadId (heap s r)) (u_threadId u)) = Some t) ∧
  (∀ t p, p ≠ r → p ∈ getReplies t s' ↔ p ∈ getReplies t s).
Proof.
  intros Hs Hr s'.
  destruct (indexed_lookup_elem s i r Hs Hr) as [Hin Hid].
  assert (Hs' : indexed s') by (by apply indexed_updatePost).
  assert (Eh : ∀ l, heap s' l =
                    if decide (r = l) then set_updated now (assign (heap s l) u)
                    else heap s l).
  { intros l. unfold s', updatePost. unfold getPostById in Hr. rewrite Hr.
    simpl. apply alter_heap. }
  assert (Ep : posts s' = posts s).
  { unfold s', updatePost. unfold getPostById in Hr. by rewrite Hr. }
  split; [by rewrite Eh, decide_True|].
  split; [by rewrite Eh, decide_True|]. split; [|split].
  - intros j. rewrite (lookup_after s); [|done|].
    + rewrite Ep. unfold getPostById. by rewrite (indexed_lookup s).
    + intros l. rewrite Eh. by case_decide.
  - intros t. rewrite indexed_getReplies, list_elem_of_filter, Ep by done.
    rewrite Eh, decide_True by done. simpl. tauto.
  - intros t p Hp. rewrite !indexed_getReplies, !list_elem_of_filter, Ep by done.
    rewrite Eh, decide_False by done. done.
Qed.

Lemma updatePost_moves_in_index_witness :
  let s' := updatePost "r" (move_thread "o") 40 family_store in
  updated (heap s' 2) = 40%Z ∧ (2 ∈ getReplies "o" s') ∧ ¬ (2 ∈ getReplies "p" s').
Proof.
  intros s'.
  destruct (updatePost_moves_in_index family_store "r" (move_thread "o") 40 2)
    as (Hu & _ & _ & Hr & _).
  - apply indexed_run, indexed_updatePostsById.
  - vm_compute. reflexivity.
  - split; [exact Hu|]. split.
    + apply Hr. vm_compute. reflexivity.
    + intros H. apply Hr in H. vm_compute in H. discriminate.
Defined.

(** ** Counters never exceed the live relations *)

Lemma length_filter_split {A} (Q K : A → Prop)
    `{!∀ x, Decision (Q x)} `{!∀ x, Decision (K x)} (l : list A) :
  length (filter Q l) =
    (length (filter Q (filter K l)) + length (filter Q (filter (λ x, ¬ K x) l)))%nat.
Proof.
  induction l as [|x l IH]; [done|].
  rewrite !(filter_cons _ x l).
  destruct (decide (K x)) as [Hk|Hk]; destruct (decide (¬ K x)) as [Hn|Hn];
    try tauto; rewrite ?filter_cons; destruct (decide (Q x)); simpl; lia.
Qed.

Lemma NoDup_all_equal {A} (l : list A) (a : A) :
  NoDup l → (∀ x, x ∈ l → x = a) → (length l ≤ 1)%nat.
Proof.
  intros ND Hall. destruct l as [|x [|y l]]; simpl; [lia|lia|].
  apply NoDup_cons in ND as [Hx _]. destruct Hx.
  rewrite (Hall x), (Hall y) by (repeat constructor). left.
Qed.

Lemma unique_ids_filter h ps (P : loc → Prop) `{!∀ x, Decision (P x)} :
  unique_ids h ps → unique_ids h (filter P ps).
Proof.
  unfold unique_ids. intros U. eapply sublist_NoDup; [exact U|].
  apply fmap_sublist, sublist_filter.
Qed.

Lemma unique_ids_ext h h' ps :
  (∀ l, id (h' l) = id (h l)) → unique_ids h ps → unique_ids h' ps.
Proof.
  unfold unique_ids. intros E U.
  replace ((λ p, id (h' p)) <$> ps) with ((λ p, id (h p)) <$> ps); [done|].
  apply list_fmap_ext. intros ? p _. by rewrite E.
Qed.

(** Posts that share an id in a collection with unique ids are few. *)
Lemma unique_ids_same_id h ps (P : loc → Prop) `{!∀ x, Decision (P x)} x :
  unique_ids h ps → (∀ p, p ∈ ps → P p → id (h p) = x) →
  (length (filter P ps) ≤ 1)%nat.
Proof.
  intros U Hx. rewrite <- (length_fmap (λ p, id (h p))).
  apply (NoDup_all_equal _ x); [by apply unique_ids_filter|].
  intros y (p & -> & Hp)%list_elem_of_fmap.
  apply list_elem_of_filter in Hp as [HP Hp]. by apply Hx.
Qed.

Section removal.
Context (s : TweetStore) (Hs : indexed s) (U : unique_ids (heap s) (posts s)).
Context (key : TweetWidgetPost → option string).

(** The posts that carry the link [key] to [l] when the posts outside [K]
    are removed: those removed have the id [x], so at most one goes, and
    one goes only when the post of id [x] resolves its link to [l]. *)
Lemma removal_count (K : loc → Prop) `{!∀ p, Decision (K p)} x l (c : Z) :
  l ∈ posts s →
  (∀ p, p ∈ posts s → ¬ K p →
        truthy (key (heap s p)) = Some (id (heap s l)) → id (heap s p) = x) →
  (c ≤ Z.of_nat (length (filter (λ p, truthy (key (heap s p)) = Some (id (heap s l)))
                                (posts s))))%Z →
  let hit := postsById s !! x ≫=
               (λ r, truthy (key (heap s r)) ≫= λ t, postsById s !! t) = Some l in
  let left := Z.of_nat (length (filter (λ p, truthy (key (heap s p)) = Some (id (heap s l)))
                                       (filter K (posts s)))) in
  (hit → Z.max 0 (c - 1) ≤ left)%Z ∧ (¬ hit → c ≤ left)%Z.
Proof.
  intros Hl Hx Hc hit left.
  pose proof (length_filter_split
                (λ p, truthy (key (heap s p)) = Some (id (heap s l))) K (posts s)) as E.
  assert (Hone : (length (filter (λ p, truthy (key (heap s p)) = Some (id (heap s l)))
                                 (filter (λ p, ¬ K p) (posts s))) ≤ 1)%nat).
  { rewrite list_filter_filter.
    apply (unique_ids_same_id (heap s) (posts s) _ x); [done|].
    intros p Hp [HQ HK]. by apply Hx. }
  split; [unfold left; lia|].
  intros Hmiss.
  destruct (filter (λ p, truthy (key (heap s p)) = Some (id (heap s l)))
                   (filter (λ p, ¬ K p) (posts s))) as [|p R] eqn:ER.
  { simpl in E. unfold left. lia. }
  assert (Hp : p ∈ filter (λ p, truthy (key (heap s p)) = Some (id (heap s l)))
                          (filter (λ p, ¬ K p) (posts s))) by (rewrite ER; left).
  rewrite !list_elem_of_filter in Hp. destruct Hp as (HQ & HK & Hp).
  destruct Hmiss. unfold hit.
  rewrite <- (Hx p Hp HK HQ), (indexed_lookup_unique s p) by done.
  simpl. rewrite HQ. simpl. by apply indexed_lookup_unique.
Qed.
End removal.

Lemma getReplies_addPost s post t1 t2 t :
  indexed s →
  getReplies t (addPost post t1 t2 s) =
    if decide (truthy (threadId (heap s post)) = Some t)
    then post :: getReplies t s else getReplies t s.
Proof.
  intros Hs.
  rewrite (replies_after s)
    by (apply indexed_updatePostsById || (intros l; apply links_addPost)).
  change (posts (addPost post t1 t2 s)) with (post :: posts s).
  rewrite filter_cons, (indexed_getReplies s) by done. by case_decide.
Qed.

Lemma getQuotePosts_addPost s post t1 t2 q :
  indexed s →
  getQuotePosts q (addPost post t1 t2 s) =
    if decide (truthy (quoteId (heap s post)) = Some q)
    then post :: getQuotePosts q s else getQuotePosts q s.
Proof.
  intros Hs.
  rewrite (quotes_after s)
    by (apply indexed_updatePostsById || (intros l; apply links_addPost)).
  change (posts (addPost post t1 t2 s)) with (post :: posts s).
  rewrite filter_cons, (indexed_getQuotePosts s) by done. by case_decide.
Qed.

Lemma unique_ids_addPost s post t1 t2 :
  unique_ids (heap s) (posts s) →
  (∀ p, p ∈ posts s → id (heap s p) ≠ id (heap s post)) →
  unique_ids (heap (addPost post t1 t2 s)) (posts (addPost post t1 t2 s)).
Proof.
  intros U Hfresh. apply (unique_ids_ext (heap s)); [intros l; apply id_addPost|].
  change (posts (addPost post t1 t2 s)) with (post :: posts s).
  unfold unique_ids. rewrite fmap_cons. apply NoDup_cons. split; [|done].
  intros (p & E & Hp)%list_elem_of_fmap. by apply (Hfresh p).
Qed.

Lemma counts_bounded_addPost s post t1 t2 :
  indexed s → counts_bounded s →
  (∀ p, p ∈ posts s → id (heap s p) ≠ id (heap s post)) →
  (or0 (replyCount (heap s post)) ≤ 0)%Z → (or0 (retweet (heap s post)) ≤ 0)%Z →
  counts_bounded (addPost post t1 t2 s).
Proof.
  intros Hs Hb Hfresh Hrc Hrt l Hl.
  rewrite id_addPost, replyCount_addPost, retweet_addPost,
    getReplies_addPost, getQuotePosts_addPost by done.
  change (posts (addPost post t1 t2 s)) with (post :: posts s) in Hl.
  unfold post_parent, post_target. split.
  - destruct (decide (truthy (threadId (heap s post)) ≫= _ = Some l)) as [E|E].
    + destruct (truthy (threadId (heap s post))) as [t|] eqn:Et; [|done].
      simpl in E. apply indexed_lookup_elem in E as [Hin <-]; [|done].
      rewrite decide_True, or0_Some by done. destruct (Hb l Hin) as [H _].
      simpl. lia.
    + apply elem_of_cons in Hl as [-> | Hin].
      * case_decide; simpl; lia.
      * destruct (Hb l Hin) as [H _]. case_decide; simpl; lia.
  - destruct (decide (truthy (quoteId (heap s post)) ≫= _ = Some l)) as [E|E].
    + destruct (truthy (quoteId (heap s post))) as [t|] eqn:Et; [|done].
      simpl in E. apply indexed_lookup_elem in E as [Hin <-]; [|done].
      rewrite decide_True, or0_Some by done. destruct (Hb l Hin) as [_ H].
      simpl. lia.
    + apply elem_of_cons in Hl as [-> | Hin].
      * case_decide; simpl; lia.
      * destruct (Hb l Hin) as [_ H]. case_decide; simpl; lia.
Qed.

Lemma or0_dec_counter o : or0 (dec_counter o) = Z.max 0 (or0 o - 1).
Proof. unfold dec_counter. apply or0_Some. Qed.

Lemma counts_bounded_deletePost s i :
  indexed s → unique_ids (heap s) (posts s) → counts_bounded s →
  counts_bounded (deletePost i s).
Proof.
  intros Hs U Hb l Hl. rewrite posts_deletePost in Hl.
  apply list_elem_of_filter in Hl as [Hne Hl]. destruct (Hb l Hl) as [Hrc Hrt].
  rewrite id_deletePost, replyCount_deletePost, retweet_deletePost.
  rewrite (replies_after s), (quotes_after s)
    by (apply indexed_updatePostsById || (intros x; apply links_deletePost)).
  rewrite posts_deletePost.
  rewrite (indexed_getReplies s) in Hrc by done.
  rewrite (indexed_getQuotePosts s) in Hrt by done.
  split.
  - destruct (removal_count s Hs U threadId (λ p, id (heap s p) ≠ i) i l
                (or0 (replyCount (heap s l))) Hl) as [H1 H2]; [|done|].
    { intros p _ Hk _. by destruct (decide (id (heap s p) = i)). }
    fold (root_parent i s) in H1, H2.
    case_decide; [rewrite or0_dec_counter|]; auto.
  - destruct (removal_count s Hs U quoteId (λ p, id (heap s p) ≠ i) i l
                (or0 (retweet (heap s l))) Hl) as [H1 H2]; [|done|].
    { intros p _ Hk _. by destruct (decide (id (heap s p) = i)). }
    fold (quote_target s i) in H1, H2.
    case_decide; [rewrite or0_dec_counter|]; auto.
Qed.

Lemma counts_bounded_deleteThread s root :
  indexed s → unique_ids (heap s) (posts s) → counts_bounded s →
  counts_bounded (deleteThread root s).
Proof.
  intros Hs U Hb l Hl. rewrite posts_deleteThread in Hl.
  apply list_elem_of_filter in Hl as [Hout Hl]. destruct (Hb l Hl) as [Hrc Hrt].
  rewrite id_deleteThread, replyCount_deleteThread, retweet_deleteThread.
  rewrite (replies_after s), (quotes_after s)
    by (apply indexed_updatePostsById || (intros x; apply links_deleteThread)).
  rewrite posts_deleteThread.
  rewrite (indexed_getReplies s) in Hrc by done.
  rewrite (indexed_getQuotePosts s) in Hrt by done.
  split.
  - destruct (removal_count s Hs U threadId
                (λ p, id (heap s p) ∉ collectThreadIds root s) root l
                (or0 (replyCount (heap s l))) Hl) as [H1 H2]; [|done|].
    { intros p Hp Hk Ht.
      assert (Hin : id (heap s p) ∈ collectThreadIds root s)
        by (by apply dec_stable).
      apply (collectThreadIds_child root s _ Hs) in Hin
        as [E | (c & a & Hc & Ec & Ha & Hd)]; [done|].
      assert (c = p) as ->.
      { pose proof (indexed_lookup_unique s c Hs U Hc) as E1.
        pose proof (indexed_lookup_unique s p Hs U Hp) as E2.
        rewrite Ec in E1. congruence. }
      destruct Hout. congruence. }
    fold (root_parent root s) in H1, H2.
    case_decide; [rewrite or0_dec_counter|]; auto.
  - rewrite (deleted_quoters_count s Hs U root l Hl), dec_counter_iter.
    pose proof (length_filter_split
                  (λ p, truthy (quoteId (heap s p)) = Some (id (heap s l)))
                  (λ p, id (heap s p) ∉ collectThreadIds root s) (posts s)) as E.
    assert (F : filter (λ p, ¬ (id (heap s p) ∉ collectThreadIds root s)) (posts s)
                = deleted_posts root s).
    { apply list_filter_iff. intros p. split; [apply dec_stable|].
      intros Hin Hn. by apply Hn. }
    cbv beta in E. rewrite F in E. fold (deleted_quoters root s l) in E.
    case_decide; [lia|]. rewrite or0_Some. lia.
Qed.

Lemma counts_bounded_updatePost s i u now :
  indexed s → content_only u → counts_bounded s →
  counts_bounded (updatePost i u now s).
Proof.
  intros Hs (Ht & Hq & Hrc & Hrt) Hb.
  assert (Hs' : indexed (updatePost i u now s)) by (by apply indexed_updatePost).
  assert (Ef : ∀ p, id (set_updated now (assign p u)) = id p ∧
                    threadId (set_updated now (assign p u)) = threadId p ∧
                    quoteId (set_updated now (assign p u)) = quoteId p ∧
                    replyCount (set_updated now (assign p u)) = replyCount p ∧
                    retweet (set_updated now (assign p u)) = retweet p).
  { intros p. simpl. by rewrite Ht, Hq, Hrc, Hrt. }
  assert (Eh : ∀ l, id (heap (updatePost i u now s) l) = id (heap s l) ∧
                    threadId (heap (updatePost i u now s) l) = threadId (heap s l) ∧
                    quoteId (heap (updatePost i u now s) l) = quoteId (heap s l) ∧
                    replyCount (heap (updatePost i u now s) l) = replyCount (heap s l) ∧
                    retweet (heap (updatePost i u now s) l) = retweet (heap s l)).
  { intros l. unfold updatePost. destruct (postsById s !! i) as [r|]; [|done].
    simpl. rewrite alter_heap. case_decide; [apply Ef|done]. }
  assert (Ep : posts (updatePost i u now s) = posts s).
  { unfold updatePost. by destruct (postsById s !! i). }
  intros l Hl. rewrite Ep in Hl. destruct (Hb l Hl) as [H1 H2].
  destruct (Eh l) as (-> & _ & _ & -> & ->).
  rewrite (replies_after s), (quotes_after s), Ep
    by (done || (intros x; by destruct (Eh x) as (_ & ? & ? & _))).
  rewrite (indexed_getReplies s) in H1 by done.
  rewrite (indexed_getQuotePosts s) in H2 by done. done.
Qed.

Lemma unique_ids_call s c :
  unique_ids (heap s) (posts s) → call_tidy s c →
  unique_ids (heap (call s c)) (posts (call s c)).
Proof.
  intros U Hc. destruct c; simpl in Hc.
  - destruct Hc as (Hfresh & _). apply unique_ids_addPost; [done|].
    by apply Forall_forall.
  - apply (unique_ids_ext (heap s)); [intros l; apply id_call|].
    simpl. unfold updatePost. by destruct (postsById s !! postId).
  - unfold call. apply (unique_ids_ext (heap s)); [intros l; apply id_deletePost|].
    rewrite posts_deletePost. by apply unique_ids_filter.
  - unfold call. apply (unique_ids_ext (heap s)); [intros l; apply id_deleteThread|].
    rewrite posts_deleteThread. by apply unique_ids_filter.
  - done.
Qed.

Lemma counts_bounded_call s c :
  indexed s → unique_ids (heap s) (posts s) → counts_bounded s →
  call_tidy s c → counts_bounded (call s c).
Proof.
  intros Hs U Hb Hc. destruct c; simpl in Hc.
  - destruct Hc as (Hfresh & Hrc & Hrt).
    apply counts_bounded_addPost; try done. by apply Forall_forall.
  - by apply counts_bounded_updatePost.
  - by apply counts_bounded_deletePost.
  - by apply counts_bounded_deleteThread.
  - done.
Qed.

(** X11: the counters never over-report.  Starting from a store with
    consistent indices and unique ids in which no [replyCount] or
    [retweet] is above the number of posts that reply to, respectively
    quote, the post, this stays so after every sequence of insertions under
    new ids of posts with counters absent or 0, updates of content only,
    [deletePost] and [deleteThread]; the ids stay unique. *)
Theorem counters_never_exceed_relations cs s :
  indexed s → unique_ids (heap s) (posts s) → counts_bounded s →
  tidy_run s cs →
  counts_bounded (run cs s) ∧ unique_ids (heap (run cs s)) (posts (run cs s)).
Proof.
  unfold run. revert s. induction cs as [|c cs IH]; intros s Hs U Hb Ht; [done|].
  destruct Ht as [Hc Ht]. simpl. apply IH; [| | |done].
  - by apply indexed_call.
  - by apply unique_ids_call.
  - by apply counts_bounded_call.
Qed.

Lemma counters_never_exceed_relations_witness :
  counts_bounded
    (run [AddPost 0 10 10; AddPost 1 20 21; DeletePost "q"] (newTweetStore quoting [])).
Proof.
  apply (counters_never_exceed_relations
           [AddPost 0 10 10; AddPost 1 20 21; DeletePost "q"] (newTweetStore quoting [])).
  - apply indexed_updatePostsById.
  - decide_by_compute.
  - intros l Hl. by apply elem_of_nil in Hl.
  - cbn [tidy_run call_tidy call]. repeat split; decide_by_compute.
Defined.

(** ** The Gemini request *)

Lemma str_app_nil s : "" +:+ s = s.
Proof. reflexivity. Qed.

Lemma str_app_cons c s1 s2 : String c s1 +:+ s2 = String c (s1 +:+ s2).
Proof. reflexivity. Qed.

Lemma str_app_nil_r s : s +:+ "" = s.
Proof. induction s as [|c s IH]; [done|]. by rewrite str_app_cons, IH. Qed.

Lemma strip_prefix_Some pat s after :
  strip_prefix pat s = Some after ↔ s = pat +:+ after.
Proof.
  revert s. induction pat as [|c pat IH]; intros s; simpl.
  - rewrite str_app_nil. split; congruence.
  - rewrite str_app_cons. destruct s as [|d s]; [split; discriminate|].
    case_decide as E.
    + subst d. rewrite IH. split; congruence.
    + split; [discriminate|]. intros [= ? _]. done.
Qed.

Lemma find_first_Some pat s before after :
  find_first pat s = Some (before, after) → s = before +:+ pat +:+ after.
Proof.
  revert before. induction s as [|c s IH]; intros before; simpl.
  - destruct (strip_prefix pat "") as [a|] eqn:E; [|done].
    intros [= <- <-]. by apply strip_prefix_Some in E.
  - destruct (strip_prefix pat (String c s)) as [a|] eqn:E.
    + intros [= <- <-]. by apply strip_prefix_Some in E.
    + destruct (find_first pat s) as [[b a]|]; [|done].
      intros [= <- <-]. rewrite str_app_cons. f_equal. by apply IH.
Qed.

Lemma find_first_None pat s before after :
  find_first pat s = None → s ≠ before +:+ pat +:+ after.
Proof.
  revert before. induction s as [|c s IH]; intros before; simpl.
  - destruct (strip_prefix pat "") as [a|] eqn:E; [done|]. intros _ Hs.
    destruct before; [|done]. rewrite str_app_nil in Hs.
    apply strip_prefix_Some in Hs. congruence.
  - destruct (strip_prefix pat (String c s)) as [a|] eqn:E; [done|].
    destruct (find_first pat s) as [[b a]|] eqn:F; [done|]. intros _ Hs.
    destruct before as [|d before].
    + rewrite str_app_nil in Hs. apply strip_prefix_Some in Hs. congruence.
    + rewrite str_app_cons in Hs. injection Hs as _ Hs. by apply (IH before).
Qed.

(** The occurrence that [find_first] returns is the first one. *)
Lemma find_first_least pat s before after before' after' :
  find_first pat s = Some (before, after) →
  s = before' +:+ pat +:+ after' →
  (String.length before ≤ String.length before')%nat.
Proof.
  revert before before'. induction s as [|c s IH]; intros before before'; simpl.
  - destruct (strip_prefix pat "") as [a|]; [|done].
    intros [= <- <-] _. simpl. lia.
  - destruct (strip_prefix pat (String c s)) as [a|] eqn:E.
    + intros [= <- <-] _. simpl. lia.
    + destruct (find_first pat s) as [[b a]|] eqn:F; [|done].
      intros [= <- <-] Hs. destruct before' as [|d before'].
      * rewrite str_app_nil in Hs. apply strip_prefix_Some in Hs. congruence.
      * rewrite str_app_cons in Hs. injection Hs as _ Hs. simpl.
        apply le_n_S. by apply (IH b before').
Qed.

Lemma substitute_plain matched before after template :
  has_dollar template = false →
  substitute matched before after template = template.
Proof.
  induction template as [|c t IH]; [done|]. simpl.
  case_decide; [done|]. intros Hd. by rewrite IH.
Qed.

(** X12: for a tweet text without a dollar sign, the prompt sent is the
    template with its first [{tweet}] replaced by the tweet text; a
    template without [{tweet}] is sent as it is, without the tweet. *)
Theorem fill_prompt_plain geminiPrompt tweet :
  has_dollar tweet = false →
  (∃ before after,
      geminiPrompt = before +:+ "{tweet}" +:+ after ∧
      (∀ b a, geminiPrompt = b +:+ "{tweet}" +:+ a →
              (String.length before ≤ String.length b)%nat) ∧
      fill_prompt geminiPrompt tweet = before +:+ tweet +:+ after) ∨
  ((∀ b a, geminiPrompt ≠ b +:+ "{tweet}" +:+ a) ∧
   fill_prompt geminiPrompt tweet = geminiPrompt).
Proof.
  intros Hd. unfold fill_prompt, js_replace.
  destruct (find_first "{tweet}" geminiPrompt) as [[before after]|] eqn:E.
  - left. exists before, after. split; [by apply find_first_Some|]. split.
    + intros b a Hb. by eapply find_first_least.
    + by rewrite substitute_plain.
  - right. split; [|done]. intros b a. by apply find_first_None.
Qed.

Lemma fill_prompt_plain_witness :
  fill_prompt "Reply to: {tweet} ({tweet})" "hello" = "Reply to: hello ({tweet})".
Proof.
  destruct (fill_prompt_plain "Reply to: {tweet} ({tweet})" "hello") as
    [(b & a & E & _ & H) | [_ H]]; [reflexivity| |]; vm_compute; reflexivity.
Defined.

(** X13: dollar forms in the tweet text are not sent verbatim, for every
    template that holds the placeholder: the tweet text [$&] gives back
    the template with its placeholder, [$$] is sent as one dollar sign,
    and [$`] and [$'] are replaced by the template text before and after
    the placeholder. *)
Theorem fill_prompt_dollar geminiPrompt before after :
  find_first "{tweet}" geminiPrompt = Some (before, after) →
  fill_prompt geminiPrompt "$&" = geminiPrompt ∧
  fill_prompt geminiPrompt "$$" = before +:+ "$" +:+ after ∧
  fill_prompt geminiPrompt "$`" = before +:+ before +:+ after ∧
  fill_prompt geminiPrompt "$'" = before +:+ after +:+ after.
Proof.
  intros E. unfold fill_prompt, js_replace. rewrite E.
  apply find_first_Some in E. simpl. rewrite !str_app_nil_r.
  by repeat split.
Qed.

Lemma fill_prompt_dollar_witness :
  fill_prompt "Reply to: {tweet}!" "$&" = "Reply to: {tweet}!" ∧
  fill_prompt "Reply to: {tweet}!" "$$" = "Reply to: $!".
Proof.
  destruct (fill_prompt_dollar "Reply to: {tweet}!" "Reply to: " "!") as (H1 & H2 & _).
  - vm_compute. reflexivity.
  - split; [exact H1 | exact H2].
Defined.

(** X14: without a prompt and with a thread of at least two items, the
    request holds one entry per thread item, in thread order and with the
    item's text, followed by one last user entry with the filled
    template; an item is sent as "model" exactly when its role is
    "assistant", so every role of the request is "user" or "model". *)
Theorem build_contents_conversation geminiPrompt prompt context items :
  truthy prompt = None → thread context = Some items →
  (1 < length items)%nat →
  let cs := build_contents geminiPrompt prompt context in
  length cs = S (length items) ∧
  (∀ i item, items !! i = Some item →
     cs !! i = Some {| c_role := Some (gemini_role item); c_text := content item |}) ∧
  last cs = Some {| c_role := Some "user";
                    c_text := fill_prompt geminiPrompt (tweetText context) |} ∧
  (∀ item, gemini_role item = "model" ↔ role item = "assistant") ∧
  (∀ c, c ∈ cs → c_role c = Some "user" ∨ c_role c = Some "model").
Proof.
  intros Hp Ht Hlen cs. unfold cs, build_contents.
  rewrite Hp, Ht, decide_True by done. split; [|split; [|split; [|split]]].
  - rewrite length_app, length_fmap. simpl. lia.
  - intros i item Hi. rewrite lookup_app_l.
    + by rewrite list_lookup_fmap, Hi.
    + rewrite length_fmap. by eapply lookup_lt_Some.
  - apply last_snoc.
  - intros item. unfold gemini_role. case_decide; split; done.
  - intros c. rewrite elem_of_app, list_elem_of_fmap, list_elem_of_singleton.
    intros [(item & -> & _) | ->]; simpl; [|by left].
    unfold gemini_role. case_decide; auto.
Qed.

Lemma build_contents_conversation_witness :
  build_contents "Reply to: {tweet}" None
    {| tweetText := "hi";
       thread := Some [ {| role := "user"; content := "a" |};
                        {| role := "assistant"; content := "b" |} ] |}
  !! 1%nat = Some {| c_role := Some "model"; c_text := "b" |}.
Proof.
  destruct (build_contents_conversation "Reply to: {tweet}" None
              {| tweetText := "hi";
                 thread := Some [ {| role := "user"; content := "a" |};
                                  {| role := "assistant"; content := "b" |} ] |}
              [ {| role := "user"; content := "a" |};
                {| role := "assistant"; content := "b" |} ]) as (_ & H & _).
  - reflexivity.
  - reflexivity.
  - simpl. lia.
  - apply (H 1%nat {| role := "assistant"; content := "b" |}). reflexivity.
Defined.

(** ** Discovery order *)

Lemma visit_fold_fresh h cs ids queue :
  NoDup ((λ c, id (h c)) <$> cs) → (∀ c, c ∈ cs → id (h c) ∉ ids) →
  foldl (visit h) (ids, queue) cs =
    (ids ++ ((λ c, id (h c)) <$> cs), queue ++ ((λ c, id (h c)) <$> cs)).
Proof.
  revert ids queue. induction cs as [|c cs IH]; intros ids queue ND Hout.
  - simpl. by rewrite !app_nil_r.
  - rewrite fmap_cons in ND. apply NoDup_cons in ND as [Hc ND].
    simpl. rewrite decide_False by (apply Hout; left).
    rewrite IH, <- !app_assoc; [done|done|].
    intros c' Hc'. rewrite elem_of_app, list_elem_of_singleton.
    intros [Hin | E].
    + apply (Hout c'); [by right|done].
    + apply Hc. rewrite <- E. apply list_elem_of_fmap. by exists c'.
Qed.

(** X15: the traversal reports the root first and its direct replies
    next, in collection order.  With consistent indices and unique ids,
    and a root that does not reply to itself, [collectThreadIds] is the
    root, then the ids of [getReplies rootId] in their order, then the
    deeper replies. *)
Theorem collectThreadIds_replies_first root s :
  indexed s → unique_ids (heap s) (posts s) →
  (∀ p, p ∈ posts s → id (heap s p) = root →
        truthy (threadId (heap s p)) ≠ Some root) →
  ∃ deeper,
    collectThreadIds root s =
      root :: ((λ c, id (heap s c)) <$> getReplies root s) ++ deeper.
Proof.
  intros Hs U Hself.
  pose proof (collectThreadIds_fuel_bound root s) as Hb.
  unfold collectThreadIds_fuel, collect_bound in Hb.
  cbn [collect_loop] in Hb.
  change (default [] (childrenByThreadId s !! root)) with (getReplies root s) in Hb.
  rewrite visit_fold_fresh in Hb.
  - apply collect_loop_count in Hb as (extra & E & _).
    exists extra. by rewrite E.
  - rewrite indexed_getReplies by done. by apply unique_ids_filter.
  - intros c Hc. rewrite indexed_getReplies in Hc by done.
    apply list_elem_of_filter in Hc as [Ht Hc].
    rewrite list_elem_of_singleton. intros E. by apply (Hself c).
Qed.

Lemma collectThreadIds_replies_first_witness :
  ∃ deeper, collectThreadIds "gone" orphan_store = "gone" :: ["b"] ++ deeper.
Proof.
  destruct (collectThreadIds_replies_first "gone" orphan_store) as [deeper E].
  - apply indexed_updatePostsById.
  - decide_by_compute.
  - intros p Hp.
    replace (posts orphan_store) with [1; 0] in Hp by (vm_compute; reflexivity).
    rewrite !elem_of_cons, elem_of_nil in Hp.
    destruct Hp as [-> | [-> | []]]; vm_compute; discriminate.
  - exists deeper. rewrite E. f_equal.
Defined.
